(** * BusTub buffer-pool primitives: extendible hash table and LRU-K replacer

    Shallow embedding of
      - src/container/hash/extendible_hash_table.cpp
      - src/buffer/lru_k_replacer.cpp
    together with the properties of their specification.

    Conventions.
    - C++ [int] values are integers of [Z]; the places where the C++
      arithmetic is undefined (shift counts outside [0,31), signed overflow)
      are made explicit as the outcome [Undefined].
    - [std::shared_ptr<Bucket>] is an address into an explicit heap of
      buckets, so that several directory slots can alias one bucket.
    - A [while(true)] loop is run with fuel; [OutOfFuel] is the outcome of a
      run that needs more iterations than the fuel given. *)

From stdpp Require Import base numbers option list strings gmap fin_maps.
From stdpp Require Import sorting.

Local Open Scope Z_scope.

(** ** Outcomes of a call *)

(** The ways a C++ call can leave the defined behaviour of the language. *)
Inductive fault : Type :=
  | EmptyBucketFront      (* [*list.begin()] on an empty [std::list] *)
  | EmptyQueue            (* [pop()] / [front()] on an empty [std::queue] *)
  | ShiftOutOfRange       (* [1 << d] with [d] outside [0,31) on a 32-bit int *)
  | SignedOverflow        (* [++] on an [int] holding [INT_MAX] *)
  | DirIndexOutOfRange    (* [dir_[i]] with [i >= dir_.size()] *)
  | DanglingBucket.       (* an address that is not in the heap *)

Inductive outcome (A : Type) : Type :=
  | Ok (a : A)
  | Throw (msg : string)
  | Undefined (f : fault)
  | OutOfFuel.
Arguments Ok {A} a.
Arguments Throw {A} msg.
Arguments Undefined {A} f.
Arguments OutOfFuel {A}.

Definition outcome_bind {A B : Type} (f : A → outcome B) (m : outcome A) : outcome B :=
  match m with
  | Ok a => f a
  | Throw msg => Throw msg
  | Undefined u => Undefined u
  | OutOfFuel => OutOfFuel
  end.

#[global] Instance outcome_mbind : MBind outcome := @outcome_bind.
#[global] Instance outcome_mret : MRet outcome := @Ok.

(** [o ?? u] : the value of [o], or the undefined behaviour [u] when the
    C++ code would read something that is not there. *)
Definition or_undefined {A : Type} (o : option A) (u : fault) : outcome A :=
  match o with Some a => Ok a | None => Undefined u end.
Infix "??" := or_undefined (at level 40, no associativity).

Definition INT_MAX : Z := 2 ^ 31 - 1.

(** [x++] on an [int]. *)
Definition int_incr (x : Z) : outcome Z :=
  if bool_decide (x < INT_MAX) then Ok (x + 1) else Undefined SignedOverflow.

(** [1 << d] on a 32-bit [int]; [(1 << d) - 1] is then a mask of [d] ones.
    For [d = 31] the shift (or, from C++20 on, the subtraction that follows
    it) overflows, for larger or negative [d] the shift itself is undefined. *)
Definition shl1 (d : Z) : outcome Z :=
  if bool_decide (0 ≤ d < 31) then Ok (2 ^ d) else Undefined ShiftOutOfRange.

Definition low_mask (d : Z) : outcome Z := w ← shl1 d; mret (w - 1).

(** * The extendible hash table *)

Module HashTable.

Section Generic.

(** The template parameters [K], [V] and the hash [std::hash<K>]. *)
Context {K V : Type} `{EqDecision K}.
Variable hash : K → Z.

(** ** Buckets *)

Record Bucket : Type := mkBucket {
  size_ : nat;                 (* capacity, [size_t] *)
  depth_ : Z;                  (* local depth, [int] *)
  list_ : list (K * V);        (* [std::list<std::pair<K,V>>] *)
}.

(** [Bucket::Bucket(array_size, depth)] *)
Definition Bucket_new (array_size : nat) (depth : Z) : Bucket :=
  mkBucket array_size depth [].

(** Modelled from the spec: the inline members of [Bucket] are declared in
    extendible_hash_table.h, which is not among the source files.  A
    bucket is "an ordered list of entries (capacity = fixed bucket size
    configured at construction)"; it is full when the number of entries has
    reached that capacity. *)
Definition IsFull (b : Bucket) : bool :=
  bool_decide (length (list_ b) = size_ b).
Definition GetDepth (b : Bucket) : Z := depth_ b.
Definition GetItems (b : Bucket) : list (K * V) := list_ b.
Definition SetItems (l : list (K * V)) (b : Bucket) : Bucket :=
  mkBucket (size_ b) (depth_ b) l.
Definition IncrementDepth (b : Bucket) : outcome Bucket :=
  d ← int_incr (depth_ b); mret (mkBucket (size_ b) d (list_ b)).

(** The scan of [Bucket::Find]: the value of the first entry with [key]. *)
Fixpoint items_find (key : K) (l : list (K * V)) : option V :=
  match l with
  | [] => None
  | (k, v) :: l' => if decide (key = k) then Some v else items_find key l'
  end.

(** The scan of [Bucket::Insert]: overwrite the value of the first entry
    with [key]; [None] when no entry has that key. *)
Fixpoint items_assign (key : K) (value : V) (l : list (K * V)) : option (list (K * V)) :=
  match l with
  | [] => None
  | (k, v) :: l' =>
      if decide (k = key) then Some ((k, value) :: l')
      else cons (k, v) <$> items_assign key value l'
  end.

(** The scan of [Bucket::Remove]: erase the first entry with [key]. *)
Fixpoint items_erase (key : K) (l : list (K * V)) : option (list (K * V)) :=
  match l with
  | [] => None
  | (k, v) :: l' =>
      if decide (k = key) then Some l'
      else cons (k, v) <$> items_erase key l'
  end.

Definition Bucket_Find (b : Bucket) (key : K) : option V :=
  items_find key (list_ b).

Definition Bucket_Remove (b : Bucket) (key : K) : bool * Bucket :=
  match items_erase key (list_ b) with
  | Some l' => (true, SetItems l' b)
  | None => (false, b)
  end.

Definition Bucket_Insert (b : Bucket) (key : K) (value : V) : bool * Bucket :=
  match items_assign key value (list_ b) with
  | Some l' => (true, SetItems l' b)
  | None =>
      if IsFull b then (false, b)
      else (true, SetItems (list_ b ++ [(key, value)]) b)
  end.

(** ** The table *)

Record ExtendibleHashTable : Type := mkTable {
  global_depth_ : Z;           (* [int] *)
  bucket_size_ : nat;          (* [size_t] *)
  num_buckets_ : Z;            (* [int] *)
  dir_ : list nat;             (* [std::vector<std::shared_ptr<Bucket>>] *)
  heap_ : list Bucket;         (* the buckets the pointers refer to *)
}.

Definition with_heap (h : list Bucket) (t : ExtendibleHashTable) : ExtendibleHashTable :=
  mkTable (global_depth_ t) (bucket_size_ t) (num_buckets_ t) (dir_ t) h.

(** [dir_[i]] and [*p] *)
Definition dir_at (t : ExtendibleHashTable) (index : Z) : outcome nat :=
  (if bool_decide (0 ≤ index) then dir_ t !! Z.to_nat index else None) ?? DirIndexOutOfRange.
Definition deref (t : ExtendibleHashTable) (p : nat) : outcome Bucket :=
  (heap_ t !! p) ?? DanglingBucket.

(** The constructor: global depth 0, one directory slot, one bucket made by
    [Bucket(bucket_size)], whose depth argument is left to its default: "a
    single bucket of local depth 0".  It has no failing path. *)
Definition new (bucket_size : nat) : outcome ExtendibleHashTable :=
  Ok (mkTable 0 bucket_size 1 [0%nat] [Bucket_new bucket_size 0]).

Definition IndexOf (t : ExtendibleHashTable) (key : K) : outcome Z :=
  mask ← low_mask (global_depth_ t);
  mret (Z.land (hash key) mask).

Definition GetGlobalDepth (t : ExtendibleHashTable) : Z := global_depth_ t.
Definition GetNumBuckets (t : ExtendibleHashTable) : Z := num_buckets_ t.
Definition GetLocalDepth (t : ExtendibleHashTable) (dir_index : Z) : outcome Z :=
  p ← dir_at t dir_index; b ← deref t p; mret (GetDepth b).

Definition Find (t : ExtendibleHashTable) (key : K) : outcome (option V) :=
  index ← IndexOf t key;
  p ← dir_at t index;
  b ← deref t p;
  mret (Bucket_Find b key).

Definition Remove (t : ExtendibleHashTable) (key : K) : outcome (bool * ExtendibleHashTable) :=
  index ← IndexOf t key;
  p ← dir_at t index;
  b ← deref t p;
  let '(flag, b') := Bucket_Remove b key in
  mret (flag, with_heap (<[p := b']> (heap_ t)) t).

(** The loop of [RedistributeBucket] over the entries of the bucket being
    split.  [kept] are the entries already visited that stay, [sib] is the
    new bucket [*p], [pa] its address. An entry whose index under the new
    mask differs from [pre_index] goes to [sib], and the directory slot of
    that index (and only that slot) is pointed to [sib]. *)
Fixpoint redistribute_items (mask pre_index : Z) (pa : nat)
    (items kept : list (K * V)) (sib : Bucket) (dir : list nat)
    : outcome (list (K * V) * Bucket * list nat) :=
  match items with
  | [] => Ok (kept, sib, dir)
  | (k, v) :: rest =>
      let index := Z.land (hash k) mask in
      if decide (index ≠ pre_index) then
        let sib' := (Bucket_Insert sib k v).2 in
        if bool_decide (0 ≤ index ∧ (Z.to_nat index < length dir)%nat) then
          redistribute_items mask pre_index pa rest kept sib' (<[Z.to_nat index := pa]> dir)
        else Undefined DirIndexOutOfRange
      else
        redistribute_items mask pre_index pa rest (kept ++ [(k, v)]) sib dir
  end.

Definition RedistributeBucket (t : ExtendibleHashTable) (bucket : nat)
    : outcome ExtendibleHashTable :=
  b0 ← deref t bucket;
  b ← IncrementDepth b0;
  let localdepth := GetDepth b in
  nb ← int_incr (num_buckets_ t);
  let pa := length (heap_ t) in
  let sib := Bucket_new (bucket_size_ t) localdepth in
  mask ← low_mask localdepth;
  pre_mask ← low_mask (localdepth - 1);
  first ← head (GetItems b) ?? EmptyBucketFront;
  let pre_index := Z.land (hash first.1) pre_mask in
  '(kept, sib', dir') ← redistribute_items mask pre_index pa (GetItems b) [] sib (dir_ t);
  mret (mkTable (global_depth_ t) (bucket_size_ t) nb dir'
          (<[bucket := SetItems kept b]> (heap_ t) ++ [sib'])).

(** One round of the [while(true)] loop of [Insert]. *)
Inductive progress : Type :=
  | Done (t : ExtendibleHashTable)      (* [break] *)
  | Again (t : ExtendibleHashTable).    (* next iteration *)

Definition Insert_step (t : ExtendibleHashTable) (key : K) (value : V) : outcome progress :=
  index ← IndexOf t key;
  p ← dir_at t index;
  b ← deref t p;
  let '(flag, b') := Bucket_Insert b key value in
  if flag then mret (Done (with_heap (<[p := b']> (heap_ t)) t))
  else if decide (GetDepth b ≠ global_depth_ t) then
    t' ← RedistributeBucket t p; mret (Again t')
  else
    gd ← int_incr (global_depth_ t);
    mret (Again (mkTable gd (bucket_size_ t) (num_buckets_ t)
                   (dir_ t ++ dir_ t) (heap_ t))).

Fixpoint Insert (fuel : nat) (t : ExtendibleHashTable) (key : K) (value : V)
    : outcome ExtendibleHashTable :=
  match fuel with
  | O => OutOfFuel
  | S fuel' =>
      r ← Insert_step t key value;
      match r with
      | Done t' => Ok t'
      | Again t' => Insert fuel' t' key value
      end
  end.

(** ** Properties the specification states of a table *)

(** The aliasing invariant of the directory: the slots that refer to one
    bucket agree on the low [depth] bits of their index, [depth] being that
    bucket's local depth. *)
Definition slots_agree (t : ExtendibleHashTable) : Prop :=
  ∀ (i j p : nat) (b : Bucket),
    dir_ t !! i = Some p → dir_ t !! j = Some p → heap_ t !! p = Some b →
    Z.of_nat i `mod` 2 ^ depth_ b = Z.of_nat j `mod` 2 ^ depth_ b.

(** Every bucket was made with the table's [bucket_size_]. *)
Definition sized (t : ExtendibleHashTable) : Prop :=
  Forall (λ b, size_ b = bucket_size_ t) (heap_ t).

Definition table_of (r : progress) : ExtendibleHashTable :=
  match r with Done t | Again t => t end.

(** The tables the code works on: made by the constructor, then changed by
    rounds of the loop of [Insert] (the last round of a call, or one that
    is followed by another) and by calls of [Remove]. *)
Inductive reachable (bucket_size : nat) : ExtendibleHashTable → Prop :=
  | reachable_new t :
      new bucket_size = Ok t → reachable bucket_size t
  | reachable_round t key value r :
      reachable bucket_size t → Insert_step t key value = Ok r →
      reachable bucket_size (table_of r)
  | reachable_Remove t key flag t' :
      reachable bucket_size t → Remove t key = Ok (flag, t') →
      reachable bucket_size t'.

(** The bucket [key] is routed to. *)
Definition routed (t : ExtendibleHashTable) (key : K) (p : nat) (b : Bucket) : Prop :=
  ∃ index, IndexOf t key = Ok index ∧ dir_at t index = Ok p ∧ deref t p = Ok b.

End Generic.

(** [std::hash<int>] (libstdc++, libc++): the value converted to [size_t]. *)
Definition std_hash_int (k : Z) : Z := k `mod` 2 ^ 64.

(** A table of [int] keys in which every one of the [2 ^ global_depth_]
    directory slots refers to one bucket of capacity one that holds key 0,
    whatever its depth. *)
Definition all_slots_on_key0 {V : Type} (v0 : V) (t : @ExtendibleHashTable Z V) : Prop :=
  Forall (λ p, p = 0%nat) (dir_ t)
  ∧ Z.of_nat (length (dir_ t)) = 2 ^ global_depth_ t
  ∧ ∃ d rest, heap_ t = mkBucket 1 d [(0, v0)] :: rest
      ∧ 0 ≤ d ≤ global_depth_ t ∧ 0 ≤ num_buckets_ t ≤ d + 1.

(** ** The shape of a table *)

Section Shape.

Context {K V : Type}.

(** The keys of a bucket, in the order of its list. *)
Definition keys (b : @Bucket K V) : list K := (list_ b).*1.

(** What every bucket of a table keeps: no key twice, no more entries than
    its capacity. *)
Definition bucket_ok (b : @Bucket K V) : Prop :=
  NoDup (keys b) ∧ (length (list_ b) ≤ size_ b)%nat.

(** The shape of the directory: [2 ^ global_depth_] slots, each the address
    of an allocated bucket; local depths between 0 and the global depth;
    [num_buckets_] the number of buckets allocated. *)
Definition directory_ok (t : @ExtendibleHashTable K V) : Prop :=
  0 ≤ global_depth_ t ≤ 31
  ∧ Z.of_nat (length (dir_ t)) = 2 ^ global_depth_ t
  ∧ Forall (λ p, (p < length (heap_ t))%nat) (dir_ t)
  ∧ Forall (λ b, 0 ≤ depth_ b ≤ global_depth_ t) (heap_ t)
  ∧ num_buckets_ t = Z.of_nat (length (heap_ t)).

Definition table_ok (t : @ExtendibleHashTable K V) : Prop :=
  directory_ok t ∧ Forall bucket_ok (heap_ t).

End Shape.

(** Two tables of [int] keys and values, capacity two: the one that holds
    the keys 1 and 2 in its first bucket, and that table after the round of
    [Insert(3, _)] that doubles its directory. *)
Definition two_keys : @ExtendibleHashTable Z Z :=
  mkTable 0 2 1 [0%nat] [mkBucket 2 0 [(1, 10); (2, 20)]].
Definition two_keys_doubled : @ExtendibleHashTable Z Z :=
  mkTable 1 2 1 [0; 0]%nat [mkBucket 2 0 [(1, 10); (2, 20)]].

End HashTable.

(** * The LRU-K replacer *)

Module Replacer.

(** Modelled from the spec: the members of [LRUKReplacer] and of its frame
    record are declared in lru_k_replacer.h, which is not among the source
    files.  A tracked frame "holds a bounded ordered sequence of access
    timestamps (oldest-first, capacity = K) and a boolean evictable flag". *)
Record Frame : Type := mkFrame {
  time_ : list Z;              (* [std::queue]: front first, push at the back *)
  evictable_ : bool;
}.

(** Modelled from the spec: the frame that [hash_[frame_id]] makes when the
    map has none.  A frame is "created implicitly on first access record";
    the running count "always equals the number of tracked frames whose
    evictable flag is true", and recording an access leaves that count alone:
    the new frame has an empty history and is not evictable. *)
Definition Frame_default : Frame := mkFrame [] false.

(** Modelled from the spec: the replacer state is "a mapping from frame id
    to Tracked Frame; a monotonically increasing logical clock (one tick
    per recorded access, process-wide, never reset); a running count of
    frames currently evictable".  Clock and count are integers that start at
    zero; the count is decremented only for a frame whose flag is true, so
    under the count invariant below it does not go below zero. *)
Record LRUKReplacer : Type := mkReplacer {
  replacer_size_ : nat;        (* [size_t] *)
  k_ : nat;                    (* [size_t] *)
  hash_ : gmap Z Frame;        (* [std::unordered_map<frame_id_t, Frame>] *)
  current_timestamp_ : Z;
  curr_size_ : Z;
}.

(** [LRUKReplacer::LRUKReplacer(num_frames, k)] *)
Definition new (num_frames k : nat) : LRUKReplacer :=
  mkReplacer num_frames k ∅ 0 0.

Definition with_hash (h : gmap Z Frame) (s : LRUKReplacer) : LRUKReplacer :=
  mkReplacer (replacer_size_ s) (k_ s) h (current_timestamp_ s) (curr_size_ s).

(** [hash_[f]] read as a value: the frame stored under [f], or the frame
    that [operator[]] creates when there is none. *)
Definition frame_at (s : LRUKReplacer) (f : Z) : Frame :=
  default Frame_default (hash_ s !! f).

(** [static_cast<int>(x)] of a [size_t]: reduction to 32 bits, two's
    complement. *)
Definition static_cast_int (x : nat) : Z :=
  (Z.of_nat x + 2 ^ 31) `mod` 2 ^ 32 - 2 ^ 31.

(** [CompareFrame(f1, f2)]: true when [f1] is to be evicted rather than
    [f2].  It is called by [Evict] on tracked frames only. *)
Definition CompareFrame (s : LRUKReplacer) (f1 f2 : Z) : outcome bool :=
  let t1 := time_ (frame_at s f1) in
  let t2 := time_ (frame_at s f2) in
  if bool_decide (length t1 < k_ s)%nat && bool_decide (length t2 = k_ s) then Ok true
  else if bool_decide (length t1 = k_ s) && bool_decide (length t2 < k_ s)%nat then Ok false
  else
    a ← head t1 ?? EmptyQueue;
    b ← head t2 ?? EmptyQueue;
    mret (bool_decide (a < b)).

(** [Remove(frame_id)].  The first component is the state the object is
    left in, also when the call throws. *)
Definition Remove (s : LRUKReplacer) (frame_id : Z) : LRUKReplacer * outcome () :=
  match hash_ s !! frame_id with
  | None => (s, Ok ())
  | Some fr =>
      if negb (evictable_ fr) then (s, Throw "remove a non-evivtable frame")
      else (mkReplacer (replacer_size_ s) (k_ s) (delete frame_id (hash_ s))
              (current_timestamp_ s) (curr_size_ s - 1), Ok ())
  end.

(** The loop of [Evict] over the entries of [hash_], in the order [order]
    in which the unordered map enumerates them; [cand] is [*frame_id]. *)
Fixpoint Evict_scan (s : LRUKReplacer) (order : list (Z * Frame)) (cand : Z) : outcome Z :=
  match order with
  | [] => Ok cand
  | (k, v) :: rest =>
      if evictable_ v then
        if decide (cand = -1) then Evict_scan s rest k
        else
          CompareFrame s k cand ≫= λ b : bool,
          Evict_scan s rest (if b then k else cand)
      else Evict_scan s rest cand
  end.

(** [Evict(&frame_id)]: [Some f] for [true] with [*frame_id = f], [None]
    for [false].  The iteration order of [std::unordered_map] is
    unspecified, so the enumeration is an argument. *)
Definition Evict (order : list (Z * Frame)) (s : LRUKReplacer)
    : LRUKReplacer * outcome (option Z) :=
  match Evict_scan s order (-1) with
  | Ok cand =>
      if decide (cand ≠ -1) then
        let sr := Remove s cand in
        (sr.1, sr.2 ≫= λ _ : (), Ok (Some cand))
      else (s, Ok None)
  | Throw msg => (s, Throw msg)
  | Undefined u => (s, Undefined u)
  | OutOfFuel => (s, OutOfFuel)
  end.

(** [RecordAccess(frame_id)] *)
Definition RecordAccess (s : LRUKReplacer) (frame_id : Z) : LRUKReplacer * outcome () :=
  if bool_decide (frame_id > static_cast_int (replacer_size_ s)) then
    (s, Throw "frame invalid")
  else
    let fr := frame_at s frame_id in
    let popped :=
      if bool_decide (length (time_ fr) = k_ s) then
        match time_ fr with
        | [] => None
        | _ :: rest => Some rest
        end
      else Some (time_ fr) in
    match popped with
    | None => (with_hash (<[frame_id := fr]> (hash_ s)) s, Undefined EmptyQueue)
    | Some q =>
        (mkReplacer (replacer_size_ s) (k_ s)
           (<[frame_id := mkFrame (q ++ [current_timestamp_ s]) (evictable_ fr)]> (hash_ s))
           (current_timestamp_ s + 1) (curr_size_ s), Ok ())
    end.

(** [SetEvictable(frame_id, set_evictable)] *)
Definition SetEvictable (s : LRUKReplacer) (frame_id : Z) (set_evictable : bool) : LRUKReplacer :=
  match hash_ s !! frame_id with
  | None => s
  | Some fr =>
      let pre := evictable_ fr in
      let h := <[frame_id := mkFrame (time_ fr) set_evictable]> (hash_ s) in
      let c :=
        if pre && negb set_evictable then curr_size_ s - 1
        else if negb pre && set_evictable then curr_size_ s + 1
        else curr_size_ s in
      mkReplacer (replacer_size_ s) (k_ s) h (current_timestamp_ s) c
  end.

Definition Size (s : LRUKReplacer) : Z := curr_size_ s.

(** ** Calls and runs *)

(** A call of the public interface; a call of [Evict] comes with the order
    in which the map enumerates its entries during that call. *)
Inductive call : Type :=
  | CallRecordAccess (frame_id : Z)
  | CallSetEvictable (frame_id : Z) (set_evictable : bool)
  | CallEvict (order : list (Z * Frame))
  | CallRemove (frame_id : Z).

(** The state a call leaves and what it returns: the victim for a call of
    [Evict] that returns true, [None] for the other calls that return. *)
Definition step (s : LRUKReplacer) (c : call) : LRUKReplacer * outcome (option Z) :=
  match c with
  | CallRecordAccess f =>
      let sr := RecordAccess s f in (sr.1, sr.2 ≫= λ _ : (), Ok None)
  | CallSetEvictable f b => (SetEvictable s f b, Ok None)
  | CallEvict order => Evict order s
  | CallRemove f =>
      let sr := Remove s f in (sr.1, sr.2 ≫= λ _ : (), Ok None)
  end.

Definition run (s : LRUKReplacer) (cs : list call) : LRUKReplacer :=
  foldl (λ s c, (step s c).1) s cs.

(** ** Properties the specification states of a replacer *)

(** What an entry of the map adds to the count of evictable frames. *)
Definition flag_weight (o : option Frame) : nat :=
  match o with
  | Some fr => if evictable_ fr then 1%nat else 0%nat
  | None => 0%nat
  end.

(** The number of tracked frames whose evictable flag is true. *)
Definition evictable_count (h : gmap Z Frame) : nat :=
  size (filter (λ kv : Z * Frame, evictable_ kv.2 = true) h).

Definition count_ok (s : LRUKReplacer) : Prop :=
  Size s = Z.of_nat (evictable_count (hash_ s)).

(** [order] is an enumeration of the entries of [hash_]. *)
Definition enumerates (order : list (Z * Frame)) (s : LRUKReplacer) : Prop :=
  order ≡ₚ map_to_list (hash_ s).

(** The data model of tracked frames: a history holds between one and [k_]
    timestamps, and no frame has the identifier -1, which [Evict] uses for
    "no frame" (identifiers are in [0, capacity) in the data model). *)
Definition tracked_ok (s : LRUKReplacer) : Prop :=
  map_Forall (λ (f : Z) (fr : Frame),
    f ≠ -1 ∧ time_ fr ≠ [] ∧ (length (time_ fr) ≤ k_ s)%nat) (hash_ s).

(** [time_.front()]: the oldest timestamp a frame retains. *)
Definition oldest (fr : Frame) : Z := default 0 (head (time_ fr)).

(** Backward k-distance at the current tick; [None] stands for infinite. *)
Definition k_distance (s : LRUKReplacer) (fr : Frame) : option Z :=
  if bool_decide (length (time_ fr) < k_ s)%nat then None
  else Some (current_timestamp_ s - oldest fr).

Definition distance_le (a b : option Z) : Prop :=
  match a, b with
  | _, None => True
  | None, Some _ => False
  | Some x, Some y => x ≤ y
  end.

(** The order [CompareFrame] decides on tracked frames: a frame with fewer
    than [k_] accesses goes before one with [k_]; within a group the older
    front timestamp goes first. *)
Definition before (s : LRUKReplacer) (fr1 fr2 : Frame) : Prop :=
  ((length (time_ fr1) < k_ s)%nat ∧ length (time_ fr2) = k_ s)
  ∨ (¬ (length (time_ fr1) = k_ s ∧ (length (time_ fr2) < k_ s)%nat)
     ∧ oldest fr1 < oldest fr2).

(** The frame a call names, if it names one. *)
Definition call_frame (c : call) : option Z :=
  match c with
  | CallRecordAccess f | CallSetEvictable f _ | CallRemove f => Some f
  | CallEvict _ => None
  end.

(** Every call of [Evict] in a run from [s] is given an enumeration of the
    map as it is at that call. *)
Fixpoint well_ordered (s : LRUKReplacer) (cs : list call) : Prop :=
  match cs with
  | [] => True
  | c :: cs' =>
      (∀ order, c = CallEvict order → enumerates order s)
      ∧ well_ordered (step s c).1 cs'
  end.

(** No call of a run from [s] returns [f] as the victim. *)
Fixpoint never_evicts (f : Z) (s : LRUKReplacer) (cs : list call) : Prop :=
  match cs with
  | [] => True
  | c :: cs' => (step s c).2 ≠ Ok (Some f) ∧ never_evicts f (step s c).1 cs'
  end.

(** The first scenario of the specification, K = 2: frames 1, 2 and 3 are
    accessed once each and made evictable. *)
Definition three_frames : LRUKReplacer :=
  run (new 7 2)
    [CallRecordAccess 1; CallRecordAccess 2; CallRecordAccess 3;
     CallSetEvictable 1 true; CallSetEvictable 2 true; CallSetEvictable 3 true].

(** ** The shape of the histories *)

(** What the calls keep of the histories: the clock is not negative; a
    tracked frame has an identifier that passed the range check and a history
    of one to [k_] timestamps, oldest first, all of them ticks of the past;
    no timestamp is in the histories of two frames. *)
Definition history_ok (s : LRUKReplacer) (f : Z) (fr : Frame) : Prop :=
  f ≤ static_cast_int (replacer_size_ s)
  ∧ time_ fr ≠ [] ∧ (length (time_ fr) ≤ k_ s)%nat
  ∧ StronglySorted Z.lt (time_ fr)
  ∧ Forall (λ x, 0 ≤ x < current_timestamp_ s) (time_ fr).

Definition stamps_apart (s : LRUKReplacer) : Prop :=
  ∀ f g fr fg x,
    hash_ s !! f = Some fr → hash_ s !! g = Some fg →
    x ∈ time_ fr → x ∈ time_ fg → f = g.

Definition stamps_ok (s : LRUKReplacer) : Prop :=
  0 ≤ current_timestamp_ s ∧ map_Forall (history_ok s) (hash_ s) ∧ stamps_apart s.

End Replacer.

(** * Reasoning about outcomes *)

Lemma outcome_bind_Ok {A B : Type} (f : A → outcome B) (m : outcome A) (b : B) :
  m ≫= f = Ok b → ∃ a, m = Ok a ∧ f a = Ok b.
Proof. destruct m; simpl; intros H; try discriminate. eauto. Qed.

Lemma or_undefined_Ok {A : Type} (o : option A) (u : fault) (a : A) :
  o ?? u = Ok a → o = Some a.
Proof. destruct o; simpl; congruence. Qed.

Lemma outcome_bind_Undefined {A B : Type} (f : A → outcome B) (m : outcome A) (u : fault) :
  m ≫= f = Undefined u → m = Undefined u ∨ ∃ a, m = Ok a ∧ f a = Undefined u.
Proof.
  destruct m as [a| | |]; intros H; try discriminate.
  - right. by exists a.
  - left. injection H as ->. reflexivity.
Qed.

Lemma or_undefined_Undefined {A : Type} (o : option A) (u u' : fault) :
  o ?? u = Undefined u' → o = None ∧ u' = u.
Proof. destruct o; simpl; [done|]. by intros [= ->]. Qed.

Lemma int_incr_Undefined (x : Z) (u : fault) :
  int_incr x = Undefined u → u = SignedOverflow.
Proof. unfold int_incr. case_bool_decide; congruence. Qed.

Lemma low_mask_Undefined (d : Z) (u : fault) :
  low_mask d = Undefined u → u = ShiftOutOfRange.
Proof.
  unfold low_mask, shl1. case_bool_decide; intros Hm; [discriminate Hm|].
  by injection Hm.
Qed.

Lemma land_low_mask (h d : Z) : 0 ≤ d → Z.land h (2 ^ d - 1) = h `mod` 2 ^ d.
Proof.
  intros Hd. replace (2 ^ d - 1) with (Z.ones d) by (rewrite Z.ones_equiv; lia).
  by apply Z.land_ones.
Qed.

(** Split a hypothesis [x ← m; k = Ok r] into [m = Ok a] and [k a = Ok r]. *)
Tactic Notation "ok_inv" hyp(H) "as" ident(a) ident(Ha) :=
  apply outcome_bind_Ok in H as (a & Ha & H).

(** The same for [x ← m; k = Undefined u]: either [m] is at fault (this case
    is handed to [tac]), or [m = Ok a] and [k a] is at fault. *)
Tactic Notation "ub_inv" hyp(H) "as" ident(a) ident(Ha) "by" tactic3(tac) :=
  apply outcome_bind_Undefined in H as [H|(a & Ha & H)]; [solve [tac]|].

(** * The extendible hash table: proofs *)

Module HashTableFacts.
Import HashTable.

Section Generic.

Context {K V : Type} `{EqDecision K}.
Variable hash : K → Z.

Implicit Types (b sib : @Bucket K V) (t : @ExtendibleHashTable K V).
Implicit Types (l items kept : list (K * V)) (r : @progress K V).

(** ** Buckets *)

Lemma items_assign_find key value l l' :
  items_assign key value l = Some l' → items_find key l' = Some value.
Proof.
  revert l'. induction l as [|[k v] l IH]; intros l'; simpl; [done|].
  destruct (decide (k = key)) as [->|Hne].
  - intros [= <-]. simpl. by rewrite decide_True.
  - destruct (items_assign key value l) as [l0|]; simpl; [|done].
    intros [= <-]. simpl. rewrite decide_False by congruence. by apply IH.
Qed.

Lemma items_assign_None_find key value l :
  items_assign key value l = None →
  items_find key (l ++ [(key, value)]) = Some value.
Proof.
  induction l as [|[k v] l IH]; simpl.
  - intros _. by rewrite decide_True.
  - destruct (decide (k = key)) as [->|Hne]; [done|].
    destruct (items_assign key value l); simpl; [done|].
    intros _. rewrite decide_False by congruence. by apply IH.
Qed.

Lemma Bucket_Insert_true_find b key value b' :
  Bucket_Insert b key value = (true, b') → Bucket_Find b' key = Some value.
Proof.
  unfold Bucket_Insert, Bucket_Find.
  destruct (items_assign key value (list_ b)) as [l'|] eqn:Ha.
  - intros [= <-]. simpl. by eapply items_assign_find.
  - destruct (IsFull b); [done|]. intros [= <-]. simpl.
    by apply items_assign_None_find.
Qed.

Lemma Bucket_Insert_false b key value b' :
  Bucket_Insert b key value = (false, b') →
  b' = b ∧ length (list_ b) = size_ b.
Proof.
  unfold Bucket_Insert.
  destruct (items_assign key value (list_ b)); [done|].
  unfold IsFull. case_bool_decide; [|done]. by intros [= <-].
Qed.

Lemma Bucket_Insert_size b key value :
  size_ (Bucket_Insert b key value).2 = size_ b.
Proof.
  unfold Bucket_Insert.
  destruct (items_assign key value (list_ b)); [done|]. by destruct (IsFull b).
Qed.

Lemma Bucket_Remove_size b key : size_ (Bucket_Remove b key).2 = size_ b.
Proof. unfold Bucket_Remove. by destruct (items_erase key (list_ b)). Qed.

(** ** Find after Insert *)

(** The round of [Insert] that breaks out of the loop leaves the key in the
    bucket that [Find] is routed to. *)
Lemma Insert_step_Done_find t key value t' :
  Insert_step hash t key value = Ok (Done t') →
  Find hash t' key = Ok (Some value).
Proof.
  unfold Insert_step. intros Hs.
  ok_inv Hs as index Hi. ok_inv Hs as p Hp. ok_inv Hs as b Hb.
  destruct (Bucket_Insert b key value) as [flag b'] eqn:Hins.
  destruct flag.
  - injection Hs as <-.
    unfold Find, IndexOf in *. simpl. rewrite Hi. simpl.
    unfold dir_at in *. simpl. rewrite Hp. simpl.
    unfold deref in *. simpl.
    apply or_undefined_Ok in Hb.
    rewrite list_lookup_insert_eq by (by eapply lookup_lt_Some). simpl.
    f_equal. by eapply Bucket_Insert_true_find.
  - destruct (decide (GetDepth b ≠ global_depth_ t)).
    + ok_inv Hs as t1 Ht1. discriminate.
    + ok_inv Hs as gd Hgd. discriminate.
Qed.

Lemma Insert_find fuel t key value t' :
  Insert hash fuel t key value = Ok t' → Find hash t' key = Ok (Some value).
Proof.
  revert t. induction fuel as [|n IH]; intros t; simpl; [done|].
  intros Hs. ok_inv Hs as r Hr. destruct r as [t1|t1].
  - injection Hs as ->. by eapply Insert_step_Done_find.
  - by eapply IH.
Qed.

(** When the routed bucket takes the entry (the key is there already, or
    there is room), [Insert] returns in its first round. *)
Lemma Insert_accepting fuel t key value p b b' :
  routed hash t key p b → Bucket_Insert b key value = (true, b') →
  Insert hash (S fuel) t key value = Ok (with_heap (<[p := b']> (heap_ t)) t).
Proof.
  intros (index & Hi & Hp & Hb) Hins. simpl. unfold Insert_step.
  rewrite Hi. simpl. rewrite Hp. simpl. rewrite Hb. simpl. by rewrite Hins.
Qed.

(** More fuel does not change a run that has ended. *)
Lemma Insert_fuel_mono fuel extra t key value t' :
  Insert hash fuel t key value = Ok t' →
  Insert hash (fuel + extra) t key value = Ok t'.
Proof.
  revert t. induction fuel as [|n IH]; intros t; simpl; [done|].
  intros Hs. ok_inv Hs as r Hr. rewrite Hr. simpl. destruct r; [done|]. by apply IH.
Qed.


(** ** Bucket capacities *)

Lemma redistribute_items_size mask pre_index pa items kept sib dir kept' sib' dir' :
  redistribute_items hash mask pre_index pa items kept sib dir = Ok (kept', sib', dir') →
  size_ sib' = size_ sib.
Proof.
  revert kept sib dir. induction items as [|[k v] items IH]; intros kept sib dir; simpl.
  - by intros [= _ <- _].
  - destruct (decide (Z.land (hash k) mask ≠ pre_index)).
    + case_bool_decide; [|done]. intros Hr. apply IH in Hr.
      by rewrite Hr, Bucket_Insert_size.
    + apply IH.
Qed.

Lemma RedistributeBucket_sized t p t' :
  sized t → RedistributeBucket hash t p = Ok t' →
  sized t' ∧ bucket_size_ t' = bucket_size_ t.
Proof.
  unfold sized, RedistributeBucket, IncrementDepth. intros Hsz Hr.
  ok_inv Hr as b0 Hb0. ok_inv Hr as b Hb. ok_inv Hb as d Hd. injection Hb as <-.
  ok_inv Hr as nb Hnb. ok_inv Hr as mask Hmask. ok_inv Hr as pre_mask Hpre.
  ok_inv Hr as first Hfirst. ok_inv Hr as res Hres.
  destruct res as [[kept sib'] dir']. injection Hr as <-. simpl. split; [|done].
  apply or_undefined_Ok in Hb0.
  apply Forall_app. split.
  - apply Forall_insert; [done|]. simpl.
    by eapply (Forall_lookup_1 _ _ _ _ Hsz).
  - apply Forall_singleton.
    by apply redistribute_items_size in Hres.
Qed.

Lemma Insert_step_sized t key value r :
  sized t → Insert_step hash t key value = Ok r →
  sized (table_of r) ∧ bucket_size_ (table_of r) = bucket_size_ t.
Proof.
  unfold Insert_step. intros Hsz Hs.
  ok_inv Hs as index Hi. ok_inv Hs as p Hp. ok_inv Hs as b Hb.
  apply or_undefined_Ok in Hb.
  pose proof (Bucket_Insert_size b key value) as Hsize.
  destruct (Bucket_Insert b key value) as [flag b']. simpl in Hsize.
  destruct flag.
  - injection Hs as <-. simpl. split; [|done].
    unfold sized in *. simpl. apply Forall_insert; [done|].
    rewrite Hsize. by eapply (Forall_lookup_1 _ _ _ _ Hsz).
  - destruct (decide (GetDepth b ≠ global_depth_ t)).
    + ok_inv Hs as t1 Ht1. injection Hs as <-. simpl.
      by eapply RedistributeBucket_sized.
    + ok_inv Hs as gd Hgd. injection Hs as <-. done.
Qed.

Lemma Remove_sized t key flag t' :
  sized t → Remove hash t key = Ok (flag, t') →
  sized t' ∧ bucket_size_ t' = bucket_size_ t.
Proof.
  unfold Remove. intros Hsz Hs.
  ok_inv Hs as index Hi. ok_inv Hs as p Hp. ok_inv Hs as b Hb.
  apply or_undefined_Ok in Hb.
  pose proof (Bucket_Remove_size b key) as Hsize.
  destruct (Bucket_Remove b key) as [fl b']. simpl in Hsize.
  injection Hs as <- <-. split; [|done].
  unfold sized in *. simpl. apply Forall_insert; [done|].
  rewrite Hsize. by eapply (Forall_lookup_1 _ _ _ _ Hsz).
Qed.

Lemma reachable_sized bucket_size t :
  reachable hash bucket_size t → sized t ∧ bucket_size_ t = bucket_size.
Proof.
  induction 1 as [t Hnew|t key value r _ [IH1 IH2] Hs|t key flag t' _ [IH1 IH2] Hr].
  - injection Hnew as <-. split; [|done]. by apply Forall_singleton.
  - destruct (Insert_step_sized _ _ _ _ IH1 Hs). split; congruence.
  - destruct (Remove_sized _ _ _ _ IH1 Hr). split; congruence.
Qed.

Lemma Insert_reachable bucket_size fuel t key value t' :
  reachable hash bucket_size t → Insert hash fuel t key value = Ok t' →
  reachable hash bucket_size t'.
Proof.
  revert t. induction fuel as [|n IH]; intros t Ht; simpl; [done|].
  intros Hs. ok_inv Hs as r Hstep.
  pose proof (reachable_round _ _ _ _ _ _ Ht Hstep) as Hr.
  destruct r as [t1|t1]; simpl in Hr.
  - by injection Hs as <-.
  - by eapply IH.
Qed.

(** ** The first entry of a bucket that is split *)

Lemma redistribute_items_fault mask pre_index pa items kept sib dir u :
  redistribute_items hash mask pre_index pa items kept sib dir = Undefined u →
  u = DirIndexOutOfRange.
Proof.
  revert kept sib dir. induction items as [|[k v] items IH]; intros kept sib dir; simpl.
  - done.
  - destruct (decide (Z.land (hash k) mask ≠ pre_index)).
    + case_bool_decide; [apply IH|]. by intros [= <-].
    + apply IH.
Qed.

(** The only way [RedistributeBucket] reads the first entry of an empty
    list is to be called on an empty bucket. *)
Lemma RedistributeBucket_EmptyBucketFront t p :
  RedistributeBucket hash t p = Undefined EmptyBucketFront →
  ∃ b, heap_ t !! p = Some b ∧ list_ b = [].
Proof.
  unfold RedistributeBucket, IncrementDepth, deref. intros Hr.
  ub_inv Hr as b0 Hb0 by (by apply or_undefined_Undefined in Hr as [_ ?]).
  apply or_undefined_Ok in Hb0.
  ub_inv Hr as b Hb by
    (ub_inv Hr as d Hd by (by apply int_incr_Undefined in Hr); done).
  ok_inv Hb as d Hd. injection Hb as <-.
  ub_inv Hr as nb Hnb by (by apply int_incr_Undefined in Hr).
  ub_inv Hr as mask Hmask by (by apply low_mask_Undefined in Hr).
  ub_inv Hr as pre_mask Hpre by (by apply low_mask_Undefined in Hr).
  apply outcome_bind_Undefined in Hr as [Hr|(first & Hfirst & Hr)].
  - apply or_undefined_Undefined in Hr as [Hhd _]. simpl in Hhd.
    exists b0. split; [done|]. by destruct (list_ b0).
  - ub_inv Hr as res Hres by (by apply redistribute_items_fault in Hr).
    by destruct res as [[? ?] ?].
Qed.

Lemma Insert_step_EmptyBucketFront t key value :
  (1 ≤ bucket_size_ t)%nat → sized t →
  Insert_step hash t key value ≠ Undefined EmptyBucketFront.
Proof.
  unfold Insert_step, IndexOf, dir_at, deref. intros Hbs Hsz Hs.
  ub_inv Hs as index Hi by
    (ub_inv Hs as m Hm by (by apply low_mask_Undefined in Hs); done).
  ub_inv Hs as p Hp by (by apply or_undefined_Undefined in Hs as [_ ?]).
  ub_inv Hs as b Hb by (by apply or_undefined_Undefined in Hs as [_ ?]).
  apply or_undefined_Ok in Hb.
  destruct (Bucket_Insert b key value) as [flag b'] eqn:Hins.
  destruct flag; [done|].
  apply Bucket_Insert_false in Hins as [-> Hfull].
  destruct (decide (GetDepth b ≠ global_depth_ t)).
  - ub_inv Hs as t1 Ht1 by
      (apply RedistributeBucket_EmptyBucketFront in Hs as (b1 & Hb1 & Hnil);
       assert (b1 = b) as -> by congruence;
       rewrite (Forall_lookup_1 _ _ _ _ Hsz Hb), Hnil in Hfull;
       simpl in Hfull; lia).
    done.
  - ub_inv Hs as gd Hgd by (by apply int_incr_Undefined in Hs). done.
Qed.

Lemma Insert_EmptyBucketFront fuel t key value :
  (1 ≤ bucket_size_ t)%nat → sized t →
  Insert hash fuel t key value ≠ Undefined EmptyBucketFront.
Proof.
  revert t. induction fuel as [|n IH]; intros t Hbs Hsz; simpl; [done|].
  intros Hs. apply outcome_bind_Undefined in Hs as [Hs|(r & Hr & Hs)].
  - by eapply Insert_step_EmptyBucketFront.
  - destruct (Insert_step_sized _ _ _ _ Hsz Hr) as [Hsz' Hbs'].
    destruct r as [t1|t1]; [done|]. simpl in *.
    eapply IH; [| |done]; [lia|done].
Qed.

(** C10. In every table reachable with a bucket size of at least one, a
    bucket that refuses an entry, which is what makes a round of [Insert]
    grow the directory or split that bucket, holds exactly [bucket_size]
    entries and so has a first entry; [RedistributeBucket] on it does not
    read the front of an empty list, and neither does any run of
    [Insert]. *)
Theorem C10_split_bucket_not_empty bucket_size t :
  (1 ≤ bucket_size)%nat → reachable hash bucket_size t →
  (∀ key value p b,
      routed hash t key p b → (Bucket_Insert b key value).1 = false →
      length (list_ b) = bucket_size ∧ is_Some (head (list_ b)) ∧
      RedistributeBucket hash t p ≠ Undefined EmptyBucketFront)
  ∧ (∀ fuel key value, Insert hash fuel t key value ≠ Undefined EmptyBucketFront).
Proof.
  intros Hbs Hreach. destruct (reachable_sized _ _ Hreach) as [Hsz Heq].
  split.
  - intros key value p b (index & _ & _ & Hb) Hflag.
    apply or_undefined_Ok in Hb.
    destruct (Bucket_Insert b key value) as [flag b'] eqn:Hins.
    simpl in Hflag. subst flag.
    apply Bucket_Insert_false in Hins as [_ Hfull].
    rewrite (Forall_lookup_1 _ _ _ _ Hsz Hb), Heq in Hfull.
    split; [done|]. split.
    + destruct (list_ b); simpl in *; [lia|by eexists].
    + intros (b1 & Hb1 & Hnil)%RedistributeBucket_EmptyBucketFront.
      assert (b1 = b) as -> by congruence.
      rewrite Hnil in Hfull. simpl in Hfull. lia.
  - intros fuel key value. apply Insert_EmptyBucketFront; [lia|done].
Qed.

End Generic.

(** ** Tables of [int] keys *)

Section IntKeys.

Context {V : Type}.
Implicit Types (t : @ExtendibleHashTable Z V) (r : @progress Z V).

(** Key 1 is routed to the bucket of key 0, which is full and does not have
    key 1.  Up to global depth 30 the round grows the table, and after
    growing every slot still refers to that bucket: a split moves no entry,
    so it repoints no slot.  At global depth 31 the mask of [IndexOf] is
    undefined. *)
Lemma all_slots_on_key0_step (v0 v1 : V) t :
  all_slots_on_key0 v0 t →
  Insert_step std_hash_int t 1 v1 = Undefined ShiftOutOfRange
  ∨ ∃ t', Insert_step std_hash_int t 1 v1 = Ok (Again t') ∧ all_slots_on_key0 v0 t'.
Proof.
  intros (Hdir & Hlen & d & rest & Hheap & Hd & Hnb).
  destruct (decide (global_depth_ t < 31)) as [Hgd|Hgd]; cycle 1.
  { left. unfold Insert_step, IndexOf, low_mask, shl1.
    by rewrite bool_decide_eq_false_2 by lia. }
  right. set (gd := global_depth_ t) in *.
  assert (0 < 2 ^ gd) as Hpow by (apply Z.pow_pos_nonneg; lia).
  assert (IndexOf std_hash_int t 1 = Ok (1 `mod` 2 ^ gd)) as Hindex.
  { unfold IndexOf, low_mask, shl1. fold gd.
    rewrite bool_decide_eq_true_2 by lia.
    change (Ok (2 ^ gd) ≫= ?g) with (g (2 ^ gd)). cbv beta.
    change (mret (2 ^ gd - 1) ≫= ?g) with (g (2 ^ gd - 1)). cbv beta.
    rewrite land_low_mask by lia. done. }
  destruct (Z.mod_pos_bound 1 (2 ^ gd) Hpow) as [Hlo Hhi].
  assert (dir_at t (1 `mod` 2 ^ gd) = Ok 0%nat) as Hslot.
  { unfold dir_at. rewrite bool_decide_eq_true_2 by done.
    destruct (lookup_lt_is_Some_2 (dir_ t) (Z.to_nat (1 `mod` 2 ^ gd))) as [p Hp];
      [lia|].
    rewrite Hp. by rewrite (Forall_lookup_1 _ _ _ _ Hdir Hp). }
  assert (deref t 0 = Ok (mkBucket 1 d [(0, v0)])) as Hbucket.
  { unfold deref. by rewrite Hheap. }
  unfold Insert_step. rewrite Hindex.
  change (Ok ?x ≫= ?g) with (g x). cbv beta. rewrite Hslot.
  change (Ok ?x ≫= ?g) with (g x). cbv beta. rewrite Hbucket.
  change (Ok ?x ≫= ?g) with (g x). cbv beta.
  change (Bucket_Insert _ 1 v1) with (false, mkBucket 1 d [(0, v0)]). cbv iota beta.
  change (GetDepth _) with d. fold gd.
  destruct (decide (d ≠ gd)) as [Hne|Heq].
  - eexists. split.
    + unfold RedistributeBucket. rewrite Hbucket.
      change (Ok ?x ≫= ?g) with (g x). cbv beta.
      unfold IncrementDepth, int_incr, INT_MAX. cbn [depth_ size_ list_].
      rewrite !bool_decide_eq_true_2 by lia.
      change (Ok ?x ≫= ?g) with (g x). cbv beta.
      change (mret ?x ≫= ?g) with (g x). cbv beta.
      change (Ok ?x ≫= ?g) with (g x). cbv beta.
      unfold low_mask, shl1. cbn [GetDepth depth_].
      rewrite !bool_decide_eq_true_2 by lia.
      reflexivity.
    + split; [done|]. split; [done|].
      exists (d + 1), (rest ++ [Bucket_new (bucket_size_ t) (d + 1)]).
      cbn [heap_ global_depth_ num_buckets_]. rewrite Hheap.
      split; [done|]. fold gd. lia.
  - apply dec_stable in Heq. eexists. split.
    + unfold int_incr, INT_MAX. fold gd. rewrite bool_decide_eq_true_2 by lia.
      reflexivity.
    + split; [by apply Forall_app|]. cbn [dir_ global_depth_ heap_ num_buckets_].
      split.
      * rewrite length_app, Z.pow_add_r by lia. lia.
      * exists d, rest. split; [done|]. lia.
Qed.

Lemma all_slots_on_key0_Insert (v0 v1 : V) fuel t :
  all_slots_on_key0 v0 t →
  Insert std_hash_int fuel t 1 v1 = OutOfFuel
  ∨ Insert std_hash_int fuel t 1 v1 = Undefined ShiftOutOfRange.
Proof.
  revert t. induction fuel as [|n IH]; intros t Hst; [by left|].
  cbn [Insert].
  destruct (all_slots_on_key0_step v0 v1 t Hst) as [->|(t' & -> & Hst')].
  - by right.
  - apply (IH t' Hst').
Qed.

(** C8 (the loop that does not end). With buckets of capacity one, after key
    0 has been inserted the call that inserts key 1 has no return: whatever
    the number of rounds allowed, the run is still in the loop (so for up to
    16 rounds, say) or has left defined behaviour at the shift by 31; it
    never breaks out of the loop. *)
Theorem C8_Insert_never_returns (v0 v1 : V) :
  ∃ t1,
    (t0 ← new 1; Insert std_hash_int 1 t0 0 v0) = Ok t1
    ∧ (∀ fuel, (fuel ≤ 16)%nat → Insert std_hash_int fuel t1 1 v1 = OutOfFuel)
    ∧ (∀ fuel, Insert std_hash_int fuel t1 1 v1 = OutOfFuel
               ∨ Insert std_hash_int fuel t1 1 v1 = Undefined ShiftOutOfRange)
    ∧ ∀ fuel t', Insert std_hash_int fuel t1 1 v1 ≠ Ok t'.
Proof.
  exists (mkTable 0 1 1 [0%nat] [mkBucket 1 0 [(0, v0)]]).
  split; [reflexivity|].
  assert (all_slots_on_key0 v0
            (mkTable 0 1 1 [0%nat] [mkBucket 1 0 [(0, v0)]])) as Hst.
  { split; [by repeat constructor|]. split; [done|].
    exists 0, []. cbn [heap_ global_depth_ num_buckets_]. split; [done|]. lia. }
  split; [|split].
  - intros fuel Hfuel.
    do 17 (destruct fuel as [|fuel]; [vm_compute; reflexivity|]). lia.
  - intros fuel. by apply all_slots_on_key0_Insert with (v0 := v0).
  - intros fuel t'.
    by destruct (all_slots_on_key0_Insert v0 v1 fuel _ Hst) as [-> | ->].
Qed.

(** C1 (the directory after a split). With buckets of capacity two, insert
    the keys 0 and 2 and then key 1.  The second round of that call splits
    the bucket of 0 and 2 at local depth 1: no entry moves, and slot 1, whose
    index has the sibling's bit, is left on the original bucket.  The call
    returns a table of global depth 2 whose slots 0, 1 and 3 all refer to the
    bucket of local depth 2 at address 0, although these indices differ in
    their two low bits; the sibling made by the first split (address 1) is
    referred to by no slot. *)
Theorem C1_slots_disagree_after_Insert (v0 v1 v2 : V) :
  ∃ t2 ta tb t,
    (t0 ← new 2; t1 ← Insert std_hash_int 1 t0 0 v0;
     Insert std_hash_int 1 t1 2 v2) = Ok t2
    ∧ Insert_step std_hash_int t2 1 v1 = Ok (Again ta)
    ∧ dir_ ta = [0; 0]%nat ∧ GetLocalDepth ta 1 = Ok 0
    ∧ RedistributeBucket std_hash_int ta 0 = Ok tb
    ∧ Insert_step std_hash_int ta 1 v1 = Ok (Again tb)
    ∧ dir_ tb = [0; 0]%nat ∧ GetNumBuckets tb = 2
    ∧ GetLocalDepth tb 0 = Ok 1 ∧ GetLocalDepth tb 1 = Ok 1
    ∧ Insert std_hash_int 5 t2 1 v1 = Ok t
    ∧ GetGlobalDepth t = 2
    ∧ dir_ t = [0; 0; 2; 0]%nat
    ∧ GetLocalDepth t 0 = Ok 2 ∧ GetLocalDepth t 1 = Ok 2
    ∧ (1%nat ∉ dir_ t)
    ∧ ¬ slots_agree tb ∧ ¬ slots_agree t.
Proof.
  do 4 eexists. split; [vm_compute; reflexivity|].
  repeat split; try reflexivity.
  - intros Hin. apply list_elem_of_In in Hin. simpl in Hin. intuition discriminate.
  - intros Hagree.
    specialize (Hagree 0%nat 1%nat 0%nat _ eq_refl eq_refl eq_refl).
    vm_compute in Hagree. discriminate.
  - intros Hagree.
    specialize (Hagree 0%nat 1%nat 0%nat _ eq_refl eq_refl eq_refl).
    vm_compute in Hagree. discriminate.
Qed.

End IntKeys.

(** C4 (what the constructor does). For every bucket size, zero included,
    construction returns a table: global depth 0, one bucket of local depth 0
    and of the capacity asked for, one directory slot. *)
Theorem C4_new_returns_for_every_size (K V : Type) (bucket_size : nat) :
  ∃ t : @ExtendibleHashTable K V,
    new bucket_size = Ok t
    ∧ GetGlobalDepth t = 0 ∧ GetNumBuckets t = 1 ∧ length (dir_ t) = 1%nat
    ∧ GetLocalDepth t 0 = Ok 0
    ∧ bucket_size_ t = bucket_size
    ∧ deref t 0 = Ok (Bucket_new bucket_size 0).
Proof. eexists. by repeat split. Qed.

(** C4, as the specification has it, fails: a bucket size of zero is not
    refused. *)
Lemma C4_zero_size_not_rejected :
  ¬ ∃ msg, new (K := Z) (V := Z) 0 = Throw msg.
Proof. intros [msg Hnew]. discriminate Hnew. Qed.

(** What a bucket size of zero leads to: the first bucket is full from the
    start, and the second round of the first [Insert] splits an empty
    bucket. *)
Lemma Insert_zero_capacity {K V : Type} `{EqDecision K} (hash : K → Z)
    (fuel : nat) (key : K) (value : V) :
  (t ← new 0; Insert hash (2 + fuel) t key value) = Undefined EmptyBucketFront.
Proof.
  set (t1 := mkTable (K := K) (V := V) 1 0 1 [0; 0]%nat [Bucket_new 0 0]).
  assert (Insert_step hash (mkTable 0 0 1 [0%nat] [Bucket_new 0 0]) key value
          = Ok (Again t1)) as Hround1.
  { unfold Insert_step, IndexOf.
    change (low_mask (global_depth_ _)) with (Ok (A := Z) 0).
    change (Ok 0 ≫= _) with (Ok (A := Z) (Z.land (hash key) 0)).
    by rewrite Z.land_0_r. }
  assert (Insert_step hash t1 key value = Undefined EmptyBucketFront) as Hround2.
  { unfold Insert_step, IndexOf.
    change (low_mask (global_depth_ _)) with (Ok (A := Z) (2 ^ 1 - 1)).
    change (Ok (2 ^ 1 - 1) ≫= _) with (Ok (A := Z) (Z.land (hash key) (2 ^ 1 - 1))).
    rewrite land_low_mask by lia.
    destruct (Z.mod_pos_bound (hash key) (2 ^ 1)) as [Hlo Hhi]; [lia|].
    assert (hash key `mod` 2 ^ 1 = 0 ∨ hash key `mod` 2 ^ 1 = 1) as [->| ->]
      by lia; reflexivity. }
  change (Insert hash (2 + fuel) ?t key value)
    with (r ← Insert_step hash t key value;
          match r with
          | Done t' => Ok t'
          | Again t' =>
              r' ← Insert_step hash t' key value;
              match r' with
              | Done t'' => Ok t''
              | Again t'' => Insert hash fuel t'' key value
              end
          end).
  change (new 0) with (Ok (mkTable (K := K) (V := V) 0 0 1 [0%nat] [Bucket_new 0 0])).
  change (Ok ?t ≫= ?f) with (f t). cbv beta.
  rewrite Hround1. change (Ok ?t ≫= ?f) with (f t). cbv beta iota.
  by rewrite Hround2.
Qed.

(** The round trip where [Insert] returns. Whenever a call of [Insert]
    returns, [Find] of the same key in the table it leaves returns the value
    inserted; the call does return, in its first round, when the bucket the
    key is routed to has the key or has room.  With buckets of capacity two and [int] keys, the keys 1 and 2 fill
    the first bucket at depth 0/0; key 3 then takes three rounds: the
    directory doubles to length 2 (global depth 1, local depths still 0), the
    bucket splits (both local depths 1, two buckets), the entry goes in;
    afterwards the three keys are found with their values. *)
Theorem Insert_then_Find_where_Insert_returns :
  (∀ (K V : Type) (EqK : EqDecision K) (hash : K → Z) (fuel : nat)
     (t t' : @ExtendibleHashTable K V) (key : K) (value : V),
      Insert hash fuel t key value = Ok t' →
      Find hash t' key = Ok (Some value))
  ∧ (∀ (K V : Type) (EqK : EqDecision K) (hash : K → Z) (fuel : nat)
       (t : @ExtendibleHashTable K V) (key : K) (value : V) p b b',
      routed hash t key p b → Bucket_Insert b key value = (true, b') →
      ∃ t', Insert hash (S fuel) t key value = Ok t'
            ∧ Find hash t' key = Ok (Some value))
  ∧ (∀ (V : Type) (v1 v2 v3 : V) (fuel : nat),
      ∃ t0 t1 t2 ta tb t3 : @ExtendibleHashTable Z V,
        new 2 = Ok t0
        ∧ Insert std_hash_int (1 + fuel) t0 1 v1 = Ok t1
        ∧ Insert std_hash_int (1 + fuel) t1 2 v2 = Ok t2
        ∧ GetGlobalDepth t2 = 0 ∧ GetLocalDepth t2 0 = Ok 0
        ∧ Insert_step std_hash_int t2 3 v3 = Ok (Again ta)
        ∧ GetGlobalDepth ta = 1 ∧ length (dir_ ta) = 2%nat ∧ GetNumBuckets ta = 1
        ∧ GetLocalDepth ta 0 = Ok 0 ∧ GetLocalDepth ta 1 = Ok 0
        ∧ Insert_step std_hash_int ta 3 v3 = Ok (Again tb)
        ∧ GetGlobalDepth tb = 1 ∧ length (dir_ tb) = 2%nat ∧ GetNumBuckets tb = 2
        ∧ GetLocalDepth tb 0 = Ok 1 ∧ GetLocalDepth tb 1 = Ok 1
        ∧ Insert_step std_hash_int tb 3 v3 = Ok (Done t3)
        ∧ Insert std_hash_int (3 + fuel) t2 3 v3 = Ok t3
        ∧ GetGlobalDepth t3 = 1 ∧ length (dir_ t3) = 2%nat
        ∧ GetLocalDepth t3 0 = Ok 1 ∧ GetLocalDepth t3 1 = Ok 1
        ∧ Find std_hash_int t3 1 = Ok (Some v1)
        ∧ Find std_hash_int t3 2 = Ok (Some v2)
        ∧ Find std_hash_int t3 3 = Ok (Some v3)).
Proof.
  split; [|split].
  - intros K V EqK hash fuel t t' key value. apply Insert_find.
  - intros K V EqK hash fuel t key value p b b' Hrouted Hins.
    eexists. split; [by eapply Insert_accepting|].
    eapply Insert_find. by eapply (Insert_accepting _ 0).
  - intros V v1 v2 v3 fuel. do 6 eexists.
    repeat split; reflexivity.
Qed.

(** An instance: [int] keys and values, key 3 inserted after 1 and 2. *)
Lemma Insert_then_Find_where_Insert_returns_instance :
  ∃ t2 t3 : @ExtendibleHashTable Z Z,
    Insert std_hash_int 3 t2 3 30 = Ok t3 ∧ Find std_hash_int t3 3 = Ok (Some 30).
Proof.
  exists (mkTable 0 2 1 [0%nat] [mkBucket 2 0 [(1, 10); (2, 20)]]).
  eexists. split; [reflexivity|].
  apply (proj1 Insert_then_Find_where_Insert_returns Z Z _ std_hash_int 3%nat
           (mkTable 0 2 1 [0%nat] [mkBucket 2 0 [(1, 10); (2, 20)]])).
  reflexivity.
Defined.

(** C2 (the round trip that does not come back). With buckets of capacity
    one, key 0 is inserted and found.  [Insert(1, v1)] followed by [Find(1)]
    then gives no result at all, so not [v1]: whatever the number of rounds
    allowed, the call of [Insert] is still in its loop or has left defined
    behaviour at the shift by 31, and [Find] is never reached. *)
Theorem C2_Insert_then_Find_gives_no_result (V : Type) (v0 v1 : V) :
  ∃ t1,
    (t0 ← new 1; Insert std_hash_int 1 t0 0 v0) = Ok t1
    ∧ Find std_hash_int t1 0 = Ok (Some v0)
    ∧ (∀ fuel,
         (t2 ← Insert std_hash_int fuel t1 1 v1; Find std_hash_int t2 1) = OutOfFuel
         ∨ (t2 ← Insert std_hash_int fuel t1 1 v1; Find std_hash_int t2 1)
           = Undefined ShiftOutOfRange)
    ∧ ∀ fuel r,
        (t2 ← Insert std_hash_int fuel t1 1 v1; Find std_hash_int t2 1) ≠ Ok r.
Proof.
  exists (mkTable 0 1 1 [0%nat] [mkBucket 1 0 [(0, v0)]]).
  split; [reflexivity|]. split; [reflexivity|].
  assert (all_slots_on_key0 v0
            (mkTable 0 1 1 [0%nat] [mkBucket 1 0 [(0, v0)]])) as Hst.
  { split; [by repeat constructor|]. split; [done|].
    exists 0, []. cbn [heap_ global_depth_ num_buckets_]. split; [done|]. lia. }
  split.
  - intros fuel.
    destruct (all_slots_on_key0_Insert v0 v1 fuel _ Hst) as [-> | ->];
      [by left|by right].
  - intros fuel r.
    by destruct (all_slots_on_key0_Insert v0 v1 fuel _ Hst) as [-> | ->].
Qed.

(** An instance of C10: capacity two, the table that holds keys 1 and 2, and
    key 3, which the full bucket refuses. *)
Lemma C10_split_bucket_not_empty_witness :
  ∃ t2 : @ExtendibleHashTable Z Z,
    (t0 ← new 2; t1 ← Insert std_hash_int 1 t0 1 10;
     Insert std_hash_int 1 t1 2 20) = Ok t2
    ∧ (∀ key value p b,
          routed std_hash_int t2 key p b → (Bucket_Insert b key value).1 = false →
          length (list_ b) = 2%nat ∧ is_Some (head (list_ b)) ∧
          RedistributeBucket std_hash_int t2 p ≠ Undefined EmptyBucketFront)
    ∧ (∀ fuel key value,
          Insert std_hash_int fuel t2 key value ≠ Undefined EmptyBucketFront).
Proof.
  eexists. split; [reflexivity|].
  apply (C10_split_bucket_not_empty std_hash_int 2); [lia|].
  apply (Insert_reachable std_hash_int 2 1%nat
           (mkTable 0 2 1 [0%nat] [mkBucket 2 0 [(1, 10)]]) 2 20);
    [|reflexivity].
  apply (Insert_reachable std_hash_int 2 1%nat
           (mkTable 0 2 1 [0%nat] [mkBucket 2 0 []]) 1 10);
    [|reflexivity].
  apply reachable_new. reflexivity.
Defined.

End HashTableFacts.

(** * The LRU-K replacer: proofs *)

Module ReplacerFacts.
Import Replacer.

Implicit Types (s : LRUKReplacer) (h : gmap Z Frame) (fr : Frame) (f g : Z).

(** ** The three ways a call of RecordAccess ends *)

Lemma RecordAccess_shape s f :
  (f > static_cast_int (replacer_size_ s)
   ∧ RecordAccess s f = (s, Throw "frame invalid"))
  ∨ (¬ f > static_cast_int (replacer_size_ s)
     ∧ ∃ q, RecordAccess s f
            = (mkReplacer (replacer_size_ s) (k_ s)
                 (<[f := mkFrame (q ++ [current_timestamp_ s])
                           (evictable_ (frame_at s f))]> (hash_ s))
                 (current_timestamp_ s + 1) (curr_size_ s), Ok ())
            ∧ (q = time_ (frame_at s f) ∧ length q ≠ k_ s
               ∨ (∃ x, time_ (frame_at s f) = x :: q) ∧ S (length q) = k_ s))
  ∨ ((¬ f > static_cast_int (replacer_size_ s) ∧ k_ s = 0%nat)
     ∧ RecordAccess s f
       = (with_hash (<[f := frame_at s f]> (hash_ s)) s, Undefined EmptyQueue)).
Proof.
  unfold RecordAccess. case_bool_decide as Hrange; [by left|right].
  case_bool_decide as Hlen.
  - destruct (time_ (frame_at s f)) as [|x q] eqn:Ht; simpl in Hlen.
    + right. by split.
    + left. split; [done|]. exists q. split; [done|]. right. split; [by exists x|done].
  - left. split; [done|]. exists (time_ (frame_at s f)). split; [done|]. by left.
Qed.

(** ** Counting evictable frames *)

Lemma evictable_count_delete h f :
  evictable_count h = (flag_weight (h !! f) + evictable_count (delete f h))%nat.
Proof.
  unfold evictable_count. destruct (h !! f) as [fr|] eqn:Hf; simpl.
  - destruct (evictable_ fr) eqn:He; simpl.
    + rewrite map_filter_delete.
      assert (filter (λ kv : Z * Frame, evictable_ kv.2 = true) h !! f = Some fr) as Hin.
      { by apply map_lookup_filter_Some. }
      rewrite map_size_delete, Hin.
      assert (size (filter (λ kv : Z * Frame, evictable_ kv.2 = true) h) ≠ 0%nat).
      { eapply map_size_ne_0_lookup_2. by rewrite Hin. }
      lia.
    + rewrite map_filter_delete_not; [done|].
      intros y Hy. simpl. congruence.
  - by rewrite delete_id.
Qed.

Lemma evictable_count_insert h f fr :
  evictable_count (<[f := fr]> h)
  = (flag_weight (Some fr) + evictable_count (delete f h))%nat.
Proof.
  rewrite (evictable_count_delete (<[f := fr]> h) f).
  by rewrite lookup_insert_eq, delete_insert_eq.
Qed.

(** Writing through [hash_[f]] without touching the flag keeps the count,
    whether or not the frame was there. *)
Lemma evictable_count_insert_same_flag h f fr :
  evictable_ fr = evictable_ (default Frame_default (h !! f)) →
  evictable_count (<[f := fr]> h) = evictable_count h.
Proof.
  intros Hflag. rewrite evictable_count_insert, (evictable_count_delete h f).
  simpl. rewrite Hflag. by destruct (h !! f).
Qed.

Lemma evictable_count_empty : evictable_count ∅ = 0%nat.
Proof. unfold evictable_count. by rewrite map_filter_empty, map_size_empty. Qed.

(** ** The count kept in [curr_size_] *)

Lemma new_count_ok num_frames k : count_ok (new num_frames k).
Proof. unfold count_ok, new, Size. simpl. by rewrite evictable_count_empty. Qed.

Lemma RecordAccess_count_ok s f : count_ok s → count_ok (RecordAccess s f).1.
Proof.
  unfold count_ok, Size. intros Hok.
  destruct (RecordAccess_shape s f) as [[_ ->]|[(_ & q & -> & _)|[_ ->]]]; simpl;
    [done|by rewrite evictable_count_insert_same_flag..].
Qed.

Lemma SetEvictable_count_ok s f b : count_ok s → count_ok (SetEvictable s f b).
Proof.
  unfold count_ok, SetEvictable, Size. intros Hok.
  pose proof (evictable_count_delete (hash_ s) f) as Hdel.
  destruct (hash_ s !! f) as [fr|]; [|done]. simpl in *.
  rewrite evictable_count_insert. simpl.
  destruct (evictable_ fr), b; simpl; lia.
Qed.

Lemma Remove_count_ok s f : count_ok s → count_ok (Remove s f).1.
Proof.
  unfold count_ok, Remove, Size. intros Hok.
  pose proof (evictable_count_delete (hash_ s) f) as Hdel.
  destruct (hash_ s !! f) as [fr|]; [|done]. simpl in *.
  destruct (evictable_ fr); simpl in *; [lia|done].
Qed.

Lemma Evict_state order s :
  (Evict order s).1 = s ∨ ∃ cand, (Evict order s).1 = (Remove s cand).1.
Proof.
  unfold Evict. destruct (Evict_scan s order (-1)) as [cand| | |]; simpl; auto.
  destruct (decide (cand ≠ -1)); simpl; eauto.
Qed.

Lemma Evict_count_ok order s : count_ok s → count_ok (Evict order s).1.
Proof.
  intros Hok. destruct (Evict_state order s) as [->|[cand ->]]; [done|].
  by apply Remove_count_ok.
Qed.

Lemma step_count_ok s c : count_ok s → count_ok (step s c).1.
Proof.
  destruct c as [f|f b|order|f]; simpl.
  - apply RecordAccess_count_ok.
  - apply SetEvictable_count_ok.
  - apply Evict_count_ok.
  - apply Remove_count_ok.
Qed.

Lemma run_count_ok s cs : count_ok s → count_ok (run s cs).
Proof.
  revert s. induction cs as [|c cs IH]; intros s Hok; simpl; [done|].
  apply IH. by apply step_count_ok.
Qed.

(** C7. [Size()] is the number of tracked frames whose evictable flag is
    true: this holds of a new replacer, every call of [RecordAccess],
    [SetEvictable], [Evict] and [Remove] keeps it (also a call that throws),
    and so it holds after every sequence of calls on a new replacer. *)
Theorem C7_size_counts_evictable_frames :
  (∀ s c, count_ok s → count_ok (step s c).1)
  ∧ (∀ num_frames k cs, count_ok (run (new num_frames k) cs)).
Proof.
  split.
  - apply step_count_ok.
  - intros num_frames k cs. apply run_count_ok, new_count_ok.
Qed.

(** An instance of C7: the second half at three accesses and a flag, the
    first half at the call that follows. *)
Lemma C7_size_counts_evictable_frames_witness :
  count_ok (run (new 7 2)
              [CallRecordAccess 1; CallRecordAccess 2; CallSetEvictable 1 true])
  ∧ count_ok (step (run (new 7 2)
                      [CallRecordAccess 1; CallRecordAccess 2; CallSetEvictable 1 true])
                (CallRemove 1)).1.
Proof.
  assert (count_ok (run (new 7 2)
            [CallRecordAccess 1; CallRecordAccess 2; CallSetEvictable 1 true])) as Hok
    by apply (proj2 C7_size_counts_evictable_frames).
  split; [exact Hok|].
  exact (proj1 C7_size_counts_evictable_frames _ _ Hok).
Defined.

(** ** RecordAccess: the range check and the clock *)

(** The call throws exactly when the frame id is greater than the capacity
    converted to [int]; the throw comes before any change of the state. *)
Lemma RecordAccess_Throw s f :
  (f > static_cast_int (replacer_size_ s) →
     RecordAccess s f = (s, Throw "frame invalid"))
  ∧ (∀ msg, (RecordAccess s f).2 = Throw msg →
       f > static_cast_int (replacer_size_ s)).
Proof.
  destruct (RecordAccess_shape s f) as [[Hgt ->]|[(Hle & q & -> & _)|[[Hle Hk] ->]]];
    by split.
Qed.

Lemma static_cast_int_small (n : nat) :
  Z.of_nat n < 2 ^ 31 → static_cast_int n = Z.of_nat n.
Proof.
  intros Hn. unfold static_cast_int.
  rewrite Z.mod_small by lia. lia.
Qed.

Lemma RecordAccess_Ok s f :
  (1 ≤ k_ s)%nat → ¬ f > static_cast_int (replacer_size_ s) →
  (RecordAccess s f).2 = Ok ().
Proof.
  intros Hk Hle.
  destruct (RecordAccess_shape s f) as [[Hgt _]|[(_ & q & -> & _)|[[_ Hk0] _]]];
    [done|done|lia].
Qed.

(** For a capacity that fits an [int] and [k_] at least one: identifiers
    above the capacity throw, all others, the capacity itself included,
    return. *)
Lemma RecordAccess_range s f :
  Z.of_nat (replacer_size_ s) < 2 ^ 31 → (1 ≤ k_ s)%nat →
  (Z.of_nat (replacer_size_ s) < f → (RecordAccess s f).2 = Throw "frame invalid")
  ∧ (f ≤ Z.of_nat (replacer_size_ s) → (RecordAccess s f).2 = Ok ()).
Proof.
  intros Hsmall Hk. rewrite <- (static_cast_int_small _ Hsmall). split.
  - intros Hgt. rewrite (proj1 (RecordAccess_Throw s f)); [done|lia].
  - intros Hle. apply RecordAccess_Ok; [done|lia].
Qed.

(** C5 (the range check). For a capacity that fits an [int] and [k_] at
    least one, [RecordAccess(frame_id)] throws "frame invalid", changing
    nothing, for every identifier greater than the capacity, and returns for
    every other identifier, the capacity itself included: the frame is then
    tracked, the tick of the call is the newest timestamp of its history and
    the clock has advanced. *)
Theorem C5_RecordAccess_range_check s f :
  Z.of_nat (replacer_size_ s) < 2 ^ 31 → (1 ≤ k_ s)%nat →
  (Z.of_nat (replacer_size_ s) < f → RecordAccess s f = (s, Throw "frame invalid"))
  ∧ (f ≤ Z.of_nat (replacer_size_ s) →
       (RecordAccess s f).2 = Ok ()
       ∧ current_timestamp_ (RecordAccess s f).1 = current_timestamp_ s + 1
       ∧ ∃ fr, hash_ (RecordAccess s f).1 !! f = Some fr
               ∧ last (time_ fr) = Some (current_timestamp_ s)).
Proof.
  intros Hsmall Hk. rewrite <- (static_cast_int_small _ Hsmall).
  destruct (RecordAccess_shape s f) as [[Hgt ->]|[(Hle & q & -> & _)|[[_ Hk0] _]]].
  - split; [done|]. intros Hf. lia.
  - split; [intros Hf; lia|]. intros _. cbn [fst snd current_timestamp_ hash_].
    split; [done|]. split; [done|].
    exists (mkFrame (q ++ [current_timestamp_ s]) (evictable_ (frame_at s f))).
    split; [by rewrite lookup_insert_eq|]. cbn [time_]. by rewrite last_snoc.
  - lia.
Qed.

(** An instance of C5: a replacer for 7 frames; frame 7 is accepted and
    frame 8 refused. *)
Lemma C5_RecordAccess_range_check_witness :
  Z.of_nat (replacer_size_ (new 7 2)) < 2 ^ 31 ∧ (1 ≤ k_ (new 7 2))%nat
  ∧ RecordAccess (new 7 2) 8 = (new 7 2, Throw "frame invalid")
  ∧ (RecordAccess (new 7 2) 7).2 = Ok ().
Proof.
  assert (Z.of_nat (replacer_size_ (new 7 2)) < 2 ^ 31) as Hsmall
    by (vm_compute; reflexivity).
  assert (1 ≤ k_ (new 7 2))%nat as Hk by (vm_compute; lia).
  split; [exact Hsmall|]. split; [exact Hk|].
  destruct (C5_RecordAccess_range_check (new 7 2) 8 Hsmall Hk) as [Hthrow _].
  destruct (C5_RecordAccess_range_check (new 7 2) 7 Hsmall Hk) as [_ Hret].
  split; [apply Hthrow; vm_compute; reflexivity|].
  apply Hret. vm_compute. discriminate.
Defined.

(** C5, as the specification has it, fails at the capacity itself. A
    replacer for 7 frames takes [RecordAccess(7)]: the call returns and
    frame 7 is tracked; it throws for 8 and returns for 6. *)
Theorem C5_frame_id_equal_to_capacity_is_accepted :
  (RecordAccess (new 7 2) 7).2 = Ok ()
  ∧ hash_ (RecordAccess (new 7 2) 7).1 !! 7 = Some (mkFrame [0] false)
  ∧ (RecordAccess (new 7 2) 8).2 = Throw "frame invalid"
  ∧ (RecordAccess (new 7 2) 6).2 = Ok ().
Proof. repeat split; vm_compute; reflexivity. Qed.

(** C6 (the clock). A call of [RecordAccess] that returns has advanced the
    clock by exactly one; a call that throws has changed nothing, the clock
    included; with [k_] at least one a call either returns or throws. *)
Theorem C6_clock_advances_when_RecordAccess_returns s f :
  ((RecordAccess s f).2 = Ok () →
     current_timestamp_ (RecordAccess s f).1 = current_timestamp_ s + 1)
  ∧ (∀ msg, (RecordAccess s f).2 = Throw msg →
       (RecordAccess s f).1 = s
       ∧ current_timestamp_ (RecordAccess s f).1 = current_timestamp_ s)
  ∧ ((1 ≤ k_ s)%nat →
       (RecordAccess s f).2 = Ok () ∨ (RecordAccess s f).2 = Throw "frame invalid").
Proof.
  destruct (RecordAccess_shape s f) as [[Hgt ->]|[(Hle & q & -> & _)|[[Hle Hk] ->]]];
    simpl; repeat split; try done; auto.
  intros ?. lia.
Qed.

(** C6, as the specification has it, fails: the call that throws leaves the
    clock where it was. *)
Lemma C6_failing_call_keeps_the_clock :
  (RecordAccess (new 7 2) 8).2 = Throw "frame invalid"
  ∧ current_timestamp_ (RecordAccess (new 7 2) 8).1 ≠ current_timestamp_ (new 7 2) + 1.
Proof. split; [reflexivity|]. vm_compute. discriminate. Qed.

(** An instance of C6: the first access to frame 3 of a new replacer
    returns, with the clock at 1. *)
Lemma C6_clock_advances_when_RecordAccess_returns_witness :
  (RecordAccess (new 7 2) 3).2 = Ok ()
  ∧ current_timestamp_ (RecordAccess (new 7 2) 3).1 = current_timestamp_ (new 7 2) + 1.
Proof.
  assert ((RecordAccess (new 7 2) 3).2 = Ok ()) as Hret by (vm_compute; reflexivity).
  split; [exact Hret|].
  exact (proj1 (C6_clock_advances_when_RecordAccess_returns (new 7 2) 3) Hret).
Defined.

(** ** Flags are changed by SetEvictable only *)

Lemma RecordAccess_flag s f g :
  evictable_ (frame_at (RecordAccess s f).1 g) = evictable_ (frame_at s g).
Proof.
  destruct (RecordAccess_shape s f) as [[_ ->]|[(_ & q & -> & _)|[_ ->]]]; simpl;
    [done|unfold frame_at; simpl; rewrite lookup_insert; case_decide..];
    by simplify_eq/=.
Qed.

Lemma RecordAccess_tracked s f s1 g :
  RecordAccess s f = (s1, Ok ()) →
  is_Some (hash_ s1 !! g) ↔ g = f ∨ is_Some (hash_ s !! g).
Proof.
  destruct (RecordAccess_shape s f) as [[_ ->]|[(_ & q & -> & _)|[_ ->]]];
    intros Hra; simplify_eq/=.
  rewrite lookup_insert_is_Some. split.
  - intros [->|[_ Hg]]; auto.
  - intros [->|Hg]; [by left|].
    destruct (decide (f = g)); [by left|by right].
Qed.

Lemma SetEvictable_flag s f b g :
  evictable_ (frame_at (SetEvictable s f b) g)
  = if decide (f = g ∧ is_Some (hash_ s !! f)) then b else evictable_ (frame_at s g).
Proof.
  unfold SetEvictable, frame_at.
  destruct (hash_ s !! f) as [fr|] eqn:Hf; simpl.
  - rewrite lookup_insert. destruct (decide (f = g)) as [->|Hne]; simpl.
    + by rewrite decide_True by eauto.
    + by rewrite decide_False by (by intros [? _]).
  - rewrite decide_False; [done|]. intros [_ [? ?]]. done.
Qed.

Lemma Remove_flag s f g :
  evictable_ (frame_at s g) = false →
  evictable_ (frame_at (Remove s f).1 g) = false.
Proof.
  unfold Remove, frame_at. intros Hg.
  destruct (hash_ s !! f) as [fr|] eqn:Hf; [|done].
  destruct (evictable_ fr) eqn:He; simpl; [|done].
  rewrite lookup_delete. case_decide; [done|]. done.
Qed.

(** What the loop of [Evict] ends with is what it started with or the key of
    an enumerated entry whose flag is true. *)
Lemma Evict_scan_origin s order cand c :
  Evict_scan s order cand = Ok c →
  c = cand ∨ ∃ fr, (c, fr) ∈ order ∧ evictable_ fr = true.
Proof.
  revert cand. induction order as [|[k v] order IH]; intros cand; simpl.
  - intros [= <-]. by left.
  - destruct (evictable_ v) eqn:Hv.
    + destruct (decide (cand = -1)).
      * intros [->|(fr & Hin & Hfr)]%IH; right.
        -- exists v. split; [by left|done].
        -- exists fr. split; [by right|done].
      * intros Hs. ok_inv Hs as b Hb.
        apply IH in Hs as [->|(fr & Hin & Hfr)].
        -- destruct b; [right|by left]. exists v. split; [by left|done].
        -- right. exists fr. split; [by right|done].
    + intros [->|(fr & Hin & Hfr)]%IH; [by left|right].
      exists fr. split; [by right|done].
Qed.

Lemma Evict_Some order s v :
  (Evict order s).2 = Ok (Some v) →
  ∃ fr, (v, fr) ∈ order ∧ evictable_ fr = true.
Proof.
  unfold Evict. destruct (Evict_scan s order (-1)) as [cand| | |] eqn:Hscan; try done.
  destruct (decide (cand ≠ -1)) as [Hne|]; simpl; [|done].
  intros Hr. ok_inv Hr as u Hu. injection Hr as ->.
  apply Evict_scan_origin in Hscan as [->|?]; done.
Qed.

Lemma enumerates_lookup order s f fr :
  enumerates order s → (f, fr) ∈ order ↔ hash_ s !! f = Some fr.
Proof.
  unfold enumerates. intros Hp. rewrite Hp. apply elem_of_map_to_list.
Qed.

Lemma step_keeps_flag_false s c f :
  c ≠ CallSetEvictable f true →
  evictable_ (frame_at s f) = false →
  evictable_ (frame_at (step s c).1 f) = false.
Proof.
  intros Hc Hf. destruct c as [g|g b|order|g]; simpl.
  - by rewrite RecordAccess_flag.
  - rewrite SetEvictable_flag. case_decide as Hd; [|done].
    destruct Hd as [-> _]. destruct b; [done|done].
  - destruct (Evict_state order s) as [->|[cand ->]]; [done|].
    by apply Remove_flag.
  - by apply Remove_flag.
Qed.

Lemma step_spares_flag_false s c f :
  (∀ order, c = CallEvict order → enumerates order s) →
  evictable_ (frame_at s f) = false →
  (step s c).2 ≠ Ok (Some f).
Proof.
  intros Horder Hf. destruct c as [g|g b|order|g]; simpl.
  - by destruct (RecordAccess s g).2.
  - done.
  - intros (fr & Hin & Hfr)%Evict_Some.
    apply (enumerates_lookup order s) in Hin; [|by apply Horder].
    unfold frame_at in Hf. rewrite Hin in Hf. simpl in Hf. congruence.
  - by destruct (Remove s g).2.
Qed.

Lemma never_evicts_flag_false s cs f :
  well_ordered s cs → CallSetEvictable f true ∉ cs →
  evictable_ (frame_at s f) = false →
  never_evicts f s cs.
Proof.
  revert s. induction cs as [|c cs IH]; intros s Hwo Hnot Hf; simpl; [done|].
  destruct Hwo as [Horder Hwo]. apply not_elem_of_cons in Hnot as [Hc Hnot].
  split.
  - by apply step_spares_flag_false.
  - apply IH; [done|done|]. by apply step_keeps_flag_false.
Qed.

(** C9. A call of [RecordAccess] that returns leaves [Size()] and the
    evictable flag of every frame as they were, and tracks the frame it names
    on top of those tracked before.  When that frame was not tracked, it is
    tracked afterwards with its flag false, and in every run of calls that
    follows without a [SetEvictable(frame_id, true)] no call of [Evict]
    returns it. *)
Theorem C9_RecordAccess_keeps_flags s f s1 :
  RecordAccess s f = (s1, Ok ()) →
  Size s1 = Size s
  ∧ (∀ g, evictable_ (frame_at s1 g) = evictable_ (frame_at s g))
  ∧ (∀ g, is_Some (hash_ s1 !! g) ↔ g = f ∨ is_Some (hash_ s !! g))
  ∧ (hash_ s !! f = None →
       (∃ fr, hash_ s1 !! f = Some fr ∧ evictable_ fr = false)
       ∧ ∀ cs, well_ordered s1 cs → CallSetEvictable f true ∉ cs →
               never_evicts f s1 cs).
Proof.
  intros Hra.
  assert (∀ g, evictable_ (frame_at s1 g) = evictable_ (frame_at s g)) as Hflags.
  { intros g. pose proof (RecordAccess_flag s f g) as Hg. by rewrite Hra in Hg. }
  split; [|split; [done|split]].
  - destruct (RecordAccess_shape s f) as [[_ Heq]|[(_ & q & Heq & _)|[_ Heq]]];
      rewrite Heq in Hra; by simplify_eq/=.
  - intros g. by eapply RecordAccess_tracked.
  - intros Hnew.
    assert (evictable_ (frame_at s1 f) = false) as Hf.
    { rewrite Hflags. unfold frame_at. by rewrite Hnew. }
    split.
    + destruct (proj2 (RecordAccess_tracked s f s1 f Hra)) as [fr Hfr]; [by left|].
      exists fr. split; [done|]. unfold frame_at in Hf. by rewrite Hfr in Hf.
    + intros cs Hwo Hnot. by apply never_evicts_flag_false.
Qed.

(** ** The data model of tracked frames is kept by the calls *)

Lemma new_tracked_ok num_frames k : tracked_ok (new num_frames k).
Proof. apply map_Forall_empty. Qed.

Lemma tracked_ok_sentinel s : tracked_ok s → hash_ s !! (-1) = None.
Proof.
  intros Hok. destruct (hash_ s !! (-1)) as [fr|] eqn:Hf; [|done].
  by destruct (Hok (-1) fr Hf) as [Hne _].
Qed.

Lemma frame_at_tracked_ok s f :
  tracked_ok s → (length (time_ (frame_at s f)) ≤ k_ s)%nat.
Proof.
  intros Hok. unfold frame_at. destruct (hash_ s !! f) as [fr|] eqn:Hf; simpl.
  - by destruct (Hok f fr Hf) as (_ & _ & ?).
  - lia.
Qed.

Lemma RecordAccess_tracked_ok s f :
  tracked_ok s → f ≠ -1 → (1 ≤ k_ s)%nat → tracked_ok (RecordAccess s f).1.
Proof.
  intros Hok Hf Hk. pose proof (frame_at_tracked_ok s f Hok) as Hlen.
  destruct (RecordAccess_shape s f) as [[_ ->]|[(_ & q & -> & Hq)|[[_ Hk0] _]]];
    [done| |lia].
  unfold tracked_ok. simpl. apply map_Forall_insert_2; [|done].
  split; [done|]. split; [by destruct q|].
  cbn [time_]. rewrite length_app. simpl.
  destruct Hq as [[-> Hne]|[[x Hx] Hlen']]; [lia|].
  rewrite Hx in Hlen. simpl in Hlen. lia.
Qed.

Lemma SetEvictable_tracked_ok s f b : tracked_ok s → tracked_ok (SetEvictable s f b).
Proof.
  intros Hok. unfold SetEvictable.
  destruct (hash_ s !! f) as [fr|] eqn:Hf; [|done].
  unfold tracked_ok. simpl. apply map_Forall_insert_2; [|done].
  apply (Hok f fr Hf).
Qed.

Lemma Remove_tracked_ok s f : tracked_ok s → tracked_ok (Remove s f).1.
Proof.
  intros Hok. unfold Remove.
  destruct (hash_ s !! f) as [fr|] eqn:Hf; [|done].
  destruct (evictable_ fr); simpl; [|done].
  unfold tracked_ok. simpl. by apply map_Forall_delete.
Qed.

Lemma step_tracked_ok s c :
  tracked_ok s → (1 ≤ k_ s)%nat → (∀ f, call_frame c = Some f → f ≠ -1) →
  tracked_ok (step s c).1 ∧ k_ (step s c).1 = k_ s.
Proof.
  intros Hok Hk Hc. destruct c as [f|f b|order|f]; simpl.
  - split; [apply RecordAccess_tracked_ok; auto|].
    by destruct (RecordAccess_shape s f) as [[_ ->]|[(_ & q & -> & _)|[_ ->]]].
  - split; [by apply SetEvictable_tracked_ok|].
    unfold SetEvictable. by destruct (hash_ s !! f).
  - destruct (Evict_state order s) as [->|[cand ->]]; [done|].
    split; [by apply Remove_tracked_ok|].
    unfold Remove. destruct (hash_ s !! cand) as [fr|]; [|done].
    by destruct (evictable_ fr).
  - split; [by apply Remove_tracked_ok|].
    unfold Remove. destruct (hash_ s !! f) as [fr|]; [|done].
    by destruct (evictable_ fr).
Qed.

(** After any calls on a new replacer that name frames by identifiers other
    than -1, the tracked frames follow the data model. *)
Lemma run_tracked_ok num_frames k cs :
  (1 ≤ k)%nat → Forall (λ c, ∀ f, call_frame c = Some f → f ≠ -1) cs →
  tracked_ok (run (new num_frames k) cs).
Proof.
  intros Hk Hcs.
  assert (∀ s, tracked_ok s → (1 ≤ k_ s)%nat → tracked_ok (run s cs)) as Hrun.
  { induction Hcs as [|c cs Hc _ IH]; intros s Hok Hks; simpl; [done|].
    destruct (step_tracked_ok s c Hok Hks Hc) as [Hok' Hk'].
    apply IH; [done|lia]. }
  apply Hrun; [apply new_tracked_ok|done].
Qed.

(** ** Evict *)

(** On tracked frames [CompareFrame] decides [before]. *)
Lemma CompareFrame_before s f1 f2 fr1 fr2 :
  hash_ s !! f1 = Some fr1 → hash_ s !! f2 = Some fr2 →
  time_ fr1 ≠ [] → time_ fr2 ≠ [] →
  ∃ b : bool, CompareFrame s f1 f2 = Ok b ∧ (b = true ↔ before s fr1 fr2).
Proof.
  intros H1 H2 Hne1 Hne2. unfold CompareFrame, frame_at, before, oldest.
  rewrite H1, H2. simpl.
  destruct (time_ fr1) as [|a q1]; [done|].
  destruct (time_ fr2) as [|b q2]; [done|]. simpl.
  repeat case_bool_decide; simpl; eexists; (split; [reflexivity|]);
    rewrite ?bool_decide_eq_true; split; intros; try done; try lia.
Qed.

Lemma before_trans s fr1 fr2 fr3 :
  (length (time_ fr1) ≤ k_ s)%nat → (length (time_ fr2) ≤ k_ s)%nat →
  (length (time_ fr3) ≤ k_ s)%nat →
  before s fr1 fr2 → before s fr2 fr3 → before s fr1 fr3.
Proof. unfold before. lia. Qed.

Lemma before_neg_trans s fr1 fr2 fr3 :
  (length (time_ fr1) ≤ k_ s)%nat → (length (time_ fr2) ≤ k_ s)%nat →
  (length (time_ fr3) ≤ k_ s)%nat →
  ¬ before s fr1 fr2 → ¬ before s fr2 fr3 → ¬ before s fr1 fr3.
Proof. unfold before. lia. Qed.

(** The loop of [Evict] ends with [-1] when it started with [-1] and no
    enumerated entry is evictable, and otherwise with an evictable tracked
    frame that neither the starting candidate nor any evictable enumerated
    frame goes before. *)
Lemma Evict_scan_least s order cand :
  tracked_ok s →
  (∀ f fr, (f, fr) ∈ order → hash_ s !! f = Some fr) →
  (cand = -1 ∨ ∃ fc, hash_ s !! cand = Some fc ∧ evictable_ fc = true) →
  ∃ c, Evict_scan s order cand = Ok c ∧
    ((c = -1 ∧ cand = -1 ∧ ∀ f fr, (f, fr) ∈ order → evictable_ fr = false)
     ∨ ∃ fc, hash_ s !! c = Some fc ∧ evictable_ fc = true
         ∧ (∀ fc0, hash_ s !! cand = Some fc0 → ¬ before s fc0 fc)
         ∧ (∀ f fr, (f, fr) ∈ order → evictable_ fr = true → ¬ before s fr fc)).
Proof.
  intros Hok. revert cand.
  induction order as [|[k v] order IH]; intros cand Hin Hcand; simpl.
  - exists cand. split; [done|].
    destruct Hcand as [->|(fc & Hfc & He)].
    + left. repeat split. intros f fr Hf. by apply elem_of_nil in Hf.
    + right. exists fc. repeat split; [done|done| |].
      * intros fc0 Hfc0. assert (fc0 = fc) as -> by congruence.
        unfold before. lia.
      * intros f fr Hf. by apply elem_of_nil in Hf.
  - assert (hash_ s !! k = Some v) as Hk by (apply Hin; by left).
    assert (∀ f fr, (f, fr) ∈ order → hash_ s !! f = Some fr) as Hin'
      by (intros f fr Hf; apply Hin; by right).
    destruct (Hok k v Hk) as (Hkpos & Hvne & Hvlen).
    destruct (evictable_ v) eqn:Hv.
    + destruct (decide (cand = -1)) as [->|Hne].
      * destruct (IH k Hin') as (c & Hc & Hres); [right; by exists v|].
        exists c. split; [done|]. right.
        destruct Hres as [(_ & Hk1 & _)|(fc & Hfc & He & Hcand' & Hrest)]; [lia|].
        exists fc. repeat split; [done|done| |].
        -- intros fc0 Hfc0. by rewrite tracked_ok_sentinel in Hfc0.
        -- intros f fr [[= -> ->]|Hf]%elem_of_cons Hfr; [by apply Hcand'|].
           by eapply Hrest.
      * destruct Hcand as [->|(fcand & Hfcand & Hecand)]; [done|].
        destruct (Hok cand fcand Hfcand) as (_ & Hcne & Hclen).
        destruct (CompareFrame_before s k cand v fcand Hk Hfcand Hvne Hcne)
          as (b & -> & Hb).
        change (Ok b ≫= ?g) with (g b). cbv beta.
        destruct b.
        -- destruct (IH k Hin') as (c & Hc & Hres); [right; by exists v|].
           exists c. split; [done|]. right.
           destruct Hres as [(_ & Hk1 & _)|(fc & Hfc & He & Hcand' & Hrest)]; [lia|].
           destruct (Hok c fc Hfc) as (_ & _ & Hfclen).
           exists fc. repeat split; [done|done| |].
           ++ intros fc0 Hfc0. assert (fc0 = fcand) as -> by congruence.
              intros Hbefore. apply (Hcand' v Hk).
              eapply before_trans;
                [exact Hvlen|exact Hclen|exact Hfclen|by apply Hb|done].
           ++ intros f fr [[= -> ->]|Hf]%elem_of_cons Hfr; [by apply Hcand'|].
              by eapply Hrest.
        -- destruct (IH cand Hin') as (c & Hc & Hres); [right; by exists fcand|].
           exists c. split; [done|]. right.
           destruct Hres as [(_ & Hk1 & _)|(fc & Hfc & He & Hcand' & Hrest)]; [done|].
           destruct (Hok c fc Hfc) as (_ & _ & Hfclen).
           exists fc. repeat split; [done|done|done|].
           intros f fr [[= -> ->]|Hf]%elem_of_cons Hfr; [|by eapply Hrest].
           eapply before_neg_trans; [exact Hvlen|exact Hclen|exact Hfclen| |by apply Hcand'].
           intros Hbefore. apply Hb in Hbefore. done.
    + destruct (IH cand Hin' Hcand) as (c & Hc & Hres).
      exists c. split; [done|].
      destruct Hres as [(-> & -> & Hnone)|(fc & Hfc & He & Hcand' & Hrest)].
      * left. repeat split.
        intros f fr [[= -> ->]|Hf]%elem_of_cons; [done|by eapply Hnone].
      * right. exists fc. repeat split; [done|done|done|].
        intros f fr [[= -> ->]|Hf]%elem_of_cons Hfr; [congruence|by eapply Hrest].
Qed.

(** The identifier -1 is what [Evict] starts from: a replacer whose only
    evictable frame is -1 gets none. *)
Lemma Evict_sentinel :
  let s := SetEvictable (RecordAccess (new 7 2) (-1)).1 (-1) true in
  Size s = 1 ∧ (Evict (map_to_list (hash_ s)) s).2 = Ok None.
Proof. split; vm_compute; reflexivity. Qed.

Lemma not_before_inv s fg fv :
  (length (time_ fg) ≤ k_ s)%nat → (length (time_ fv) ≤ k_ s)%nat →
  ¬ before s fg fv →
  distance_le (k_distance s fg) (k_distance s fv)
  ∧ (length (time_ fv) = k_ s → length (time_ fg) = k_ s)
  ∧ ((length (time_ fv) < k_ s)%nat → (length (time_ fg) < k_ s)%nat →
     oldest fv ≤ oldest fg).
Proof.
  unfold before, k_distance, distance_le. intros Hg Hv Hnot.
  repeat case_bool_decide; repeat split; intros; lia.
Qed.

(** C3. On a replacer whose tracked frames follow the data model, and for
    every order in which the map may enumerate them, [Evict] returns (it
    neither throws nor leaves defined behaviour).  It returns none exactly
    when no tracked frame is evictable, and then changes nothing.  Otherwise
    the victim [v] is a tracked evictable frame, it is removed from the map,
    and for every evictable frame [g]: the backward k-distance of [g] is at
    most that of [v]; if [v] has [k_] accesses then so has [g] (a frame with
    [k_] accesses is not chosen while one with fewer is evictable); and if
    both have fewer than [k_] accesses, the oldest timestamp of [v] is at
    most that of [g]. *)
Theorem C3_Evict_largest_k_distance order s :
  tracked_ok s → enumerates order s →
  ∃ r, (Evict order s).2 = Ok r
    ∧ (r = None ↔ ∀ f fr, hash_ s !! f = Some fr → evictable_ fr = false)
    ∧ (r = None → (Evict order s).1 = s)
    ∧ ∀ v, r = Some v →
        ∃ fv, hash_ s !! v = Some fv ∧ evictable_ fv = true
          ∧ hash_ (Evict order s).1 = delete v (hash_ s)
          ∧ ∀ g fg, hash_ s !! g = Some fg → evictable_ fg = true →
              distance_le (k_distance s fg) (k_distance s fv)
              ∧ (length (time_ fv) = k_ s → length (time_ fg) = k_ s)
              ∧ ((length (time_ fv) < k_ s)%nat → (length (time_ fg) < k_ s)%nat →
                 oldest fv ≤ oldest fg).
Proof.
  intros Hok Henum.
  destruct (Evict_scan_least s order (-1) Hok) as (c & Hscan & Hres).
  { intros f fr Hf. by apply (enumerates_lookup order s). }
  { by left. }
  unfold Evict. rewrite Hscan.
  destruct Hres as [(-> & _ & Hnone)|(fc & Hfc & He & _ & Hleast)].
  - rewrite decide_False by (intros Hne; by apply Hne). simpl.
    exists None. repeat split; try done.
    intros _ f fr Hf. apply (Hnone f fr). by apply (enumerates_lookup order s).
  - destruct (Hok c fc Hfc) as (Hcpos & _ & Hclen).
    rewrite decide_True by lia. unfold Remove. rewrite Hfc, He. simpl.
    exists (Some c). split; [done|]. split; [|split; [done|]].
    + split; [done|]. intros Hall. specialize (Hall c fc Hfc). congruence.
    + intros v [= <-]. exists fc. split; [done|]. split; [done|]. split; [done|].
      intros g fg Hg Hge. destruct (Hok g fg Hg) as (_ & _ & Hglen).
      apply (not_before_inv s fg fc Hglen Hclen).
      apply (Hleast g fg); [by apply (enumerates_lookup order s)|done].
Qed.

(** ** Instances *)

Lemma three_frames_Evict :
  Size three_frames = 3
  ∧ (Evict (map_to_list (hash_ three_frames)) three_frames).2 = Ok (Some 1)
  ∧ (let s4 := (RecordAccess
                  (Evict (map_to_list (hash_ three_frames)) three_frames).1 2).1 in
     (Evict (map_to_list (hash_ s4)) s4).2 = Ok (Some 3)).
Proof. repeat split; vm_compute; reflexivity. Qed.

(** An instance of C3: the three frames above, in the order of
    [map_to_list]. *)
Lemma C3_Evict_largest_k_distance_witness :
  tracked_ok three_frames
  ∧ enumerates (map_to_list (hash_ three_frames)) three_frames
  ∧ ∃ r, (Evict (map_to_list (hash_ three_frames)) three_frames).2 = Ok r
      ∧ (r = None ↔
         ∀ f fr, hash_ three_frames !! f = Some fr → evictable_ fr = false).
Proof.
  assert (tracked_ok three_frames) as Hok.
  { apply run_tracked_ok; [lia|].
    repeat constructor; intros f [= <-]; lia. }
  assert (enumerates (map_to_list (hash_ three_frames)) three_frames) as Henum
    by (unfold enumerates; reflexivity).
  split; [exact Hok|]. split; [exact Henum|].
  destruct (C3_Evict_largest_k_distance _ _ Hok Henum) as (r & Hr & Hnone & _).
  exists r. split; [exact Hr|exact Hnone].
Defined.

(** An instance of C9: the first access to frame 1 of a new replacer. *)
Lemma C9_RecordAccess_keeps_flags_witness :
  RecordAccess (new 7 2) 1 = ((RecordAccess (new 7 2) 1).1, Ok ())
  ∧ Size (RecordAccess (new 7 2) 1).1 = Size (new 7 2)
  ∧ (∀ cs, well_ordered (RecordAccess (new 7 2) 1).1 cs →
           CallSetEvictable 1 true ∉ cs →
           never_evicts 1 (RecordAccess (new 7 2) 1).1 cs).
Proof.
  assert (RecordAccess (new 7 2) 1 = ((RecordAccess (new 7 2) 1).1, Ok ())) as Hra
    by (vm_compute; reflexivity).
  split; [exact Hra|].
  destruct (C9_RecordAccess_keeps_flags _ _ _ Hra) as (Hsize & _ & _ & Hnew).
  split; [exact Hsize|].
  apply Hnew. vm_compute. reflexivity.
Defined.

End ReplacerFacts.

(** * The hash table: shape, lookups and growth *)

Module HashTableMore.
Import HashTable HashTableFacts.

Lemma low_mask_Ok_inv (d m : Z) : low_mask d = Ok m → 0 ≤ d < 31 ∧ m = 2 ^ d - 1.
Proof.
  unfold low_mask, shl1. case_bool_decide; intros Hm; [|discriminate Hm].
  injection Hm as <-. done.
Qed.

Lemma int_incr_Ok_inv (x y : Z) : int_incr x = Ok y → x < INT_MAX ∧ y = x + 1.
Proof. unfold int_incr. case_bool_decide; intros [= <-]. done. Qed.

Section Tables.

Context {K V : Type} `{EqDecision K}.
Variable hash : K → Z.

Implicit Types (b sib : @Bucket K V) (t : @ExtendibleHashTable K V).
Implicit Types (l items kept : list (K * V)) (r : @progress K V).

(** ** Scans of a bucket's list *)

Lemma items_find_None key l : items_find key l = None ↔ key ∉ l.*1.
Proof.
  induction l as [|[k v] l IH]; simpl.
  - split; [intros _; apply not_elem_of_nil|done].
  - rewrite not_elem_of_cons. destruct (decide (key = k)) as [->|Hne].
    + split; [done|]. by intros [? _].
    + rewrite IH. split; [intros ?; by split|by intros [_ ?]].
Qed.

Lemma items_assign_None key value l : items_assign key value l = None ↔ key ∉ l.*1.
Proof.
  induction l as [|[k v] l IH]; simpl.
  - split; [intros _; apply not_elem_of_nil|done].
  - rewrite not_elem_of_cons. destruct (decide (k = key)) as [->|Hne].
    + split; [done|]. by intros [? _].
    + rewrite fmap_None, IH. split; [|by intros [_ ?]]. intros ?. split; [congruence|done].
Qed.

Lemma items_assign_Some key value l l' :
  items_assign key value l = Some l' →
  l'.*1 = l.*1 ∧ length l' = length l
  ∧ ∀ key', key' ≠ key → items_find key' l' = items_find key' l.
Proof.
  revert l'. induction l as [|[k v] l IH]; intros l'; simpl; [done|].
  destruct (decide (k = key)) as [->|Hne].
  - intros [= <-]. simpl. repeat split. intros key' Hk. by rewrite !decide_False.
  - destruct (items_assign key value l) as [l0|]; simpl; [|done].
    intros [= <-]. destruct (IH l0 eq_refl) as (Hfst & Hlen & Hother). simpl.
    repeat split; [by f_equal|by f_equal|].
    intros key' Hk. destruct (decide (key' = k)); [done|]. by apply Hother.
Qed.

Lemma items_find_app_other key key' value l :
  key' ≠ key → items_find key' (l ++ [(key, value)]) = items_find key' l.
Proof.
  intros Hne. induction l as [|[k v] l IH]; simpl.
  - by rewrite decide_False.
  - by destruct (decide (key' = k)).
Qed.

Lemma items_erase_None key l : items_erase key l = None ↔ key ∉ l.*1.
Proof.
  induction l as [|[k v] l IH]; simpl.
  - split; [intros _; apply not_elem_of_nil|done].
  - rewrite not_elem_of_cons. destruct (decide (k = key)) as [->|Hne].
    + split; [done|]. by intros [? _].
    + rewrite fmap_None, IH. split; [|by intros [_ ?]]. intros ?. split; [congruence|done].
Qed.

Lemma items_erase_Some key l l' :
  items_erase key l = Some l' →
  key ∈ l.*1 ∧ S (length l') = length l ∧ l'.*1 `sublist_of` l.*1
  ∧ (NoDup l.*1 → key ∉ l'.*1)
  ∧ ∀ key', key' ≠ key → items_find key' l' = items_find key' l.
Proof.
  revert l'. induction l as [|[k v] l IH]; intros l'; simpl; [done|].
  destruct (decide (k = key)) as [->|Hne].
  - intros [= <-]. split; [by left|]. split; [done|]. split; [by apply sublist_cons|].
    split; [by intros [? _]%NoDup_cons|].
    intros key' Hk. by rewrite decide_False.
  - destruct (items_erase key l) as [l0|]; simpl; [|done].
    intros [= <-]. destruct (IH l0 eq_refl) as (Hin & Hlen & Hsub & Hnd & Hother).
    simpl. split; [by right|]. split; [by f_equal|]. split; [by apply sublist_skip|].
    split.
    + intros [_ Hl]%NoDup_cons. rewrite not_elem_of_cons. split; [congruence|auto].
    + intros key' Hk. destruct (decide (key' = k)); [done|]. by apply Hother.
Qed.

(** ** Buckets *)

Lemma Bucket_Insert_depth b key value : depth_ (Bucket_Insert b key value).2 = depth_ b.
Proof.
  unfold Bucket_Insert.
  destruct (items_assign key value (list_ b)); [done|]. by destruct (IsFull b).
Qed.

Lemma Bucket_Insert_ok b key value : bucket_ok b → bucket_ok (Bucket_Insert b key value).2.
Proof.
  unfold bucket_ok, keys, Bucket_Insert, IsFull. intros [Hnd Hcap].
  destruct (items_assign key value (list_ b)) as [l'|] eqn:Ha; simpl.
  - apply items_assign_Some in Ha as (-> & -> & _). done.
  - apply items_assign_None in Ha. case_bool_decide; simpl; [done|].
    rewrite fmap_app, length_app. simpl. split; [|lia].
    apply NoDup_app. split; [done|]. split; [|apply NoDup_singleton].
    intros x Hx ->%list_elem_of_singleton. done.
Qed.

Lemma Bucket_Insert_find_other b key value key' :
  key' ≠ key → Bucket_Find (Bucket_Insert b key value).2 key' = Bucket_Find b key'.
Proof.
  unfold Bucket_Insert, Bucket_Find. intros Hne.
  destruct (items_assign key value (list_ b)) as [l'|] eqn:Ha; simpl.
  - apply items_assign_Some in Ha as (_ & _ & Hother). by apply Hother.
  - destruct (IsFull b); simpl; [done|]. by apply items_find_app_other.
Qed.

Lemma Bucket_Remove_depth b key : depth_ (Bucket_Remove b key).2 = depth_ b.
Proof. unfold Bucket_Remove. by destruct (items_erase key (list_ b)). Qed.

Lemma Bucket_Remove_ok b key : bucket_ok b → bucket_ok (Bucket_Remove b key).2.
Proof.
  unfold bucket_ok, keys, Bucket_Remove. intros [Hnd Hcap].
  destruct (items_erase key (list_ b)) as [l'|] eqn:He; simpl; [|done].
  apply items_erase_Some in He as (_ & Hlen & Hsub & _). split; [|lia].
  by eapply sublist_NoDup.
Qed.

Lemma Bucket_Remove_find_other b key key' :
  key' ≠ key → Bucket_Find (Bucket_Remove b key).2 key' = Bucket_Find b key'.
Proof.
  unfold Bucket_Remove, Bucket_Find. intros Hne.
  destruct (items_erase key (list_ b)) as [l'|] eqn:He; simpl; [|done].
  apply items_erase_Some in He as (_ & _ & _ & _ & Hother). by apply Hother.
Qed.

Lemma Bucket_Remove_find b key :
  NoDup (keys b) → Bucket_Find (Bucket_Remove b key).2 key = None.
Proof.
  unfold Bucket_Remove, Bucket_Find, keys. intros Hnd.
  destruct (items_erase key (list_ b)) as [l'|] eqn:He; simpl.
  - apply items_erase_Some in He as (_ & _ & _ & Hnot & _).
    apply items_find_None. auto.
  - apply items_find_None. by apply items_erase_None.
Qed.

Lemma Bucket_Remove_flag b key :
  (Bucket_Remove b key).1 = true ↔ is_Some (Bucket_Find b key).
Proof.
  unfold Bucket_Remove, Bucket_Find.
  rewrite <- not_eq_None_Some, items_find_None.
  destruct (items_erase key (list_ b)) as [l'|] eqn:He; simpl.
  - apply items_erase_Some in He as (Hin & _). split; [|done]. intros _ Hnot. done.
  - apply items_erase_None in He. split; [done|]. intros Hnot. done.
Qed.


(** ** Rounds of Insert, case by case *)

Lemma Insert_step_Ok_inv t key value r :
  Insert_step hash t key value = Ok r →
  ∃ index p b,
    IndexOf hash t key = Ok index ∧ dir_at t index = Ok p ∧ heap_ t !! p = Some b
    ∧ ((∃ b', Bucket_Insert b key value = (true, b')
          ∧ r = Done (with_heap (<[p := b']> (heap_ t)) t))
       ∨ (Bucket_Insert b key value = (false, b) ∧ depth_ b ≠ global_depth_ t
          ∧ ∃ t', RedistributeBucket hash t p = Ok t' ∧ r = Again t')
       ∨ (Bucket_Insert b key value = (false, b) ∧ depth_ b = global_depth_ t
          ∧ global_depth_ t < INT_MAX
          ∧ r = Again (mkTable (global_depth_ t + 1) (bucket_size_ t) (num_buckets_ t)
                         (dir_ t ++ dir_ t) (heap_ t)))).
Proof.
  unfold Insert_step. intros Hs.
  ok_inv Hs as index Hi. ok_inv Hs as p Hp. ok_inv Hs as b Hb.
  apply or_undefined_Ok in Hb. exists index, p, b. repeat (split; [done|]).
  destruct (Bucket_Insert b key value) as [flag b'] eqn:Hins. destruct flag.
  - left. injection Hs as <-. by exists b'.
  - right. apply Bucket_Insert_false in Hins as Hb'. destruct Hb' as [-> _].
    unfold GetDepth in Hs.
    destruct (decide (depth_ b ≠ global_depth_ t)) as [Hne|Heq].
    + left. ok_inv Hs as t1 Ht1. injection Hs as <-. repeat split; [done|]. by exists t1.
    + right. apply dec_stable in Heq. ok_inv Hs as gd Hgd. injection Hs as <-.
      apply int_incr_Ok_inv in Hgd as [Hlt ->]. done.
Qed.

(** ** Lookups after a bucket is rewritten in place *)

Lemma Find_with_heap t p b b' key :
  heap_ t !! p = Some b → Bucket_Find b' key = Bucket_Find b key →
  Find hash (with_heap (<[p := b']> (heap_ t)) t) key = Find hash t key.
Proof.
  intros Hb Hsame. unfold Find, IndexOf, dir_at, deref. simpl.
  destruct (low_mask (global_depth_ t)) as [m| | |]; try done.
  change (Ok m ≫= ?g) with (g m). cbv beta.
  change (mret ?x ≫= ?g) with (g x). cbv beta.
  destruct ((if bool_decide (0 ≤ Z.land (hash key) m)
             then dir_ t !! Z.to_nat (Z.land (hash key) m) else None) ?? DirIndexOutOfRange)
    as [q| | |]; try done.
  change (Ok q ≫= ?g) with (g q). cbv beta.
  destruct (decide (q = p)) as [->|Hne].
  - rewrite list_lookup_insert_eq by (by eapply lookup_lt_Some). rewrite Hb.
    simpl. by rewrite Hsame.
  - by rewrite list_lookup_insert_ne.
Qed.

(** ** The shape of the table is kept *)

Lemma new_table_ok bucket_size t : new (K := K) (V := V) bucket_size = Ok t → table_ok t.
Proof.
  intros [= <-]. split.
  - repeat split; simpl; try done; repeat constructor; simpl; lia.
  - repeat constructor. simpl. lia.
Qed.

Lemma table_ok_with_heap t p b b' :
  table_ok t → heap_ t !! p = Some b → depth_ b' = depth_ b → bucket_ok b' →
  table_ok (with_heap (<[p := b']> (heap_ t)) t).
Proof.
  intros [(Hgd & Hlen & Hslots & Hdepth & Hnb) Hbk] Hb Hd Hok. split.
  - split; [done|]. split; [done|]. simpl. rewrite length_insert.
    split; [done|]. split; [|done].
    apply Forall_insert; [done|]. rewrite Hd.
    by apply (Forall_lookup_1 _ _ _ _ Hdepth Hb).
  - simpl. by apply Forall_insert.
Qed.

Lemma filter_keys_NoDup (P : K * V → Prop) `{!∀ x, Decision (P x)} l :
  NoDup l.*1 → NoDup (filter P l).*1.
Proof.
  induction l as [|[k v] l IH]; [done|]. simpl. intros [Hk Hl]%NoDup_cons.
  rewrite filter_cons. destruct (decide (P (k, v))); [|by apply IH].
  simpl. apply NoDup_cons. split; [|by apply IH].
  intros Hin. apply Hk. apply list_elem_of_fmap in Hin as ([k' v'] & -> & Hin).
  apply list_elem_of_fmap. exists (k', v'). split; [done|].
  by apply list_elem_of_filter in Hin as [_ ?].
Qed.

Lemma redistribute_items_Ok mask pre_index pa items kept sib dir kept' sib' dir' :
  redistribute_items hash mask pre_index pa items kept sib dir = Ok (kept', sib', dir') →
  kept' = kept ++ filter (λ kv, Z.land (hash kv.1) mask = pre_index) items
  ∧ length dir' = length dir
  ∧ (∀ P : nat → Prop, Forall P dir → P pa → Forall P dir')
  ∧ depth_ sib' = depth_ sib
  ∧ (bucket_ok sib → bucket_ok sib').
Proof.
  revert kept sib dir. induction items as [|[k v] items IH]; intros kept sib dir; simpl.
  - intros [= <- <- <-]. rewrite app_nil_r. done.
  - rewrite filter_cons. simpl.
    destruct (decide (Z.land (hash k) mask ≠ pre_index)) as [Hmove|Hstay].
    + rewrite decide_False by done. case_bool_decide; [|done].
      intros (-> & Hlen & Hdir & Hd & Hok)%IH.
      rewrite length_insert in Hlen. rewrite Bucket_Insert_depth in Hd.
      split; [done|]. split; [done|]. split; [|split; [done|]].
      * intros P HP Hpa. apply Hdir; [|done]. by apply Forall_insert.
      * intros Hsib. by apply Hok, Bucket_Insert_ok.
    + apply dec_stable in Hstay. rewrite decide_True by done.
      intros (-> & Hlen & Hdir & Hd & Hok)%IH. by rewrite <- app_assoc.
Qed.

Lemma RedistributeBucket_table_ok t p b0 t' :
  table_ok t → heap_ t !! p = Some b0 → depth_ b0 ≠ global_depth_ t →
  RedistributeBucket hash t p = Ok t' →
  table_ok t' ∧ global_depth_ t' = global_depth_ t
  ∧ num_buckets_ t' = num_buckets_ t + 1.
Proof.
  intros [(Hgd & Hlen & Hslots & Hdepth & Hnb) Hbk] Hb0 Hne Hr.
  unfold RedistributeBucket, IncrementDepth, deref in Hr. rewrite Hb0 in Hr.
  change (Some b0 ?? _ ≫= ?g) with (g b0) in Hr. cbv beta in Hr.
  ok_inv Hr as b Hb. ok_inv Hb as d Hd. injection Hb as <-.
  apply int_incr_Ok_inv in Hd as [_ ->].
  ok_inv Hr as nb Hnb'. apply int_incr_Ok_inv in Hnb' as [_ ->].
  ok_inv Hr as mask Hmask. ok_inv Hr as pre_mask Hpre.
  ok_inv Hr as first Hfirst. ok_inv Hr as res Hres.
  destruct res as [[kept sib'] dir']. injection Hr as <-.
  unfold GetItems, GetDepth in Hres. simpl in Hres.
  apply redistribute_items_Ok in Hres as (-> & Hlen' & Hdir & Hsd & Hsok).
  simpl in Hsd.
  pose proof (Forall_lookup_1 _ _ _ _ Hdepth Hb0) as Hd0. simpl in Hd0.
  destruct (Forall_lookup_1 _ _ _ _ Hbk Hb0) as [Hnd0 Hcap0].
  split; [|done]. split.
  - unfold directory_ok. simpl. split; [done|]. split; [by rewrite Hlen'|].
    rewrite length_app, length_insert. simpl. split; [|split].
    + apply Hdir; [|lia]. eapply Forall_impl; [exact Hslots|]. simpl. lia.
    + apply Forall_app. split.
      * apply Forall_insert; [done|]. simpl. lia.
      * apply Forall_singleton. rewrite Hsd. lia.
    + lia.
  - simpl. apply Forall_app. split.
    + apply Forall_insert; [done|]. split; simpl.
      * by apply filter_keys_NoDup.
      * etrans; [apply length_filter|done].
    + apply Forall_singleton. apply Hsok. split; [apply NoDup_nil_2|]. simpl. lia.
Qed.

Lemma Insert_step_table_ok t key value r :
  table_ok t → Insert_step hash t key value = Ok r → table_ok (table_of r).
Proof.
  intros Hok Hs.
  destruct (Insert_step_Ok_inv _ _ _ _ Hs)
    as (index & p & b & Hi & Hp & Hb &
        [(b' & Hins & ->)|[(Hins & Hne & t' & Hr & ->)|(Hins & Heq & Hlt & ->)]]); simpl.
  - apply (table_ok_with_heap t p b b' Hok Hb).
    + pose proof (Bucket_Insert_depth b key value) as Hd. by rewrite Hins in Hd.
    + pose proof (Bucket_Insert_ok b key value) as Hbo. rewrite Hins in Hbo.
      apply Hbo. destruct Hok as [_ Hbk]. by apply (Forall_lookup_1 _ _ _ _ Hbk Hb).
  - by destruct (RedistributeBucket_table_ok t p b t' Hok Hb Hne Hr).
  - destruct Hok as [(Hgd & Hlen & Hslots & Hdepth & Hnb) Hbk].
    unfold IndexOf in Hi. ok_inv Hi as m Hm. apply low_mask_Ok_inv in Hm as [Hgd31 _].
    split; [|done]. unfold directory_ok. simpl.
    split; [lia|]. split; [|split; [|split; [|done]]].
    + rewrite length_app, Z.pow_add_r, Z.pow_1_r by lia. lia.
    + by apply Forall_app.
    + eapply Forall_impl; [exact Hdepth|]. simpl. intros b1 Hb1. lia.
Qed.

Lemma Remove_table_ok t key flag t' :
  table_ok t → Remove hash t key = Ok (flag, t') → table_ok t'.
Proof.
  intros Hok Hs. unfold Remove in Hs.
  ok_inv Hs as index Hi. ok_inv Hs as p Hp. ok_inv Hs as b Hb.
  apply or_undefined_Ok in Hb.
  pose proof (Bucket_Remove_depth b key) as Hd.
  pose proof (Bucket_Remove_ok b key) as Hbo.
  destruct (Bucket_Remove b key) as [fl b']. injection Hs as <- <-.
  apply (table_ok_with_heap t p b b' Hok Hb Hd). apply Hbo.
  destruct Hok as [_ Hbk]. by apply (Forall_lookup_1 _ _ _ _ Hbk Hb).
Qed.

Lemma reachable_table_ok bucket_size t : reachable hash bucket_size t → table_ok t.
Proof.
  induction 1 as [t Hnew|t key value r _ IH Hs|t key flag t' _ IH Hr].
  - by eapply new_table_ok.
  - by eapply Insert_step_table_ok.
  - by eapply Remove_table_ok.
Qed.

(** ** What the introspection functions report *)

Lemma table_ok_slot t i :
  table_ok t → 0 ≤ i < 2 ^ global_depth_ t →
  ∃ p b, dir_at t i = Ok p ∧ heap_ t !! p = Some b ∧ bucket_ok b
         ∧ 0 ≤ depth_ b ≤ global_depth_ t.
Proof.
  intros [(Hgd & Hlen & Hslots & Hdepth & Hnb) Hbk] Hi.
  destruct (lookup_lt_is_Some_2 (dir_ t) (Z.to_nat i)) as [p Hp]; [lia|].
  pose proof (Forall_lookup_1 _ _ _ _ Hslots Hp) as Hlt. simpl in Hlt.
  destruct (lookup_lt_is_Some_2 (heap_ t) p Hlt) as [b Hb].
  exists p, b. unfold dir_at. rewrite bool_decide_eq_true_2 by lia. rewrite Hp.
  split; [done|]. split; [done|]. split.
  - by apply (Forall_lookup_1 _ _ _ _ Hbk Hb).
  - by apply (Forall_lookup_1 _ _ _ _ Hdepth Hb).
Qed.

Lemma IndexOf_Ok t key :
  0 ≤ global_depth_ t ≤ 30 →
  IndexOf hash t key = Ok (hash key `mod` 2 ^ global_depth_ t)
  ∧ 0 ≤ hash key `mod` 2 ^ global_depth_ t < 2 ^ global_depth_ t.
Proof.
  intros Hgd. unfold IndexOf, low_mask, shl1.
  rewrite bool_decide_eq_true_2 by lia.
  change (Ok ?x ≫= ?g) with (g x). cbv beta.
  change (mret ?x ≫= ?g) with (g x). cbv beta.
  rewrite land_low_mask by lia. split; [done|].
  apply Z.mod_pos_bound. apply Z.pow_pos_nonneg; lia.
Qed.

Lemma table_ok_routed t key :
  table_ok t → global_depth_ t ≤ 30 →
  ∃ p b, routed hash t key p b ∧ bucket_ok b.
Proof.
  intros Hok Hgd. pose proof Hok as [(Hgd0 & _) _].
  destruct (IndexOf_Ok t key) as [Hi Hrange]; [lia|].
  destruct (table_ok_slot t _ Hok Hrange) as (p & b & Hp & Hb & Hbo & _).
  exists p, b. split; [|done]. eexists. split; [done|]. split; [done|].
  unfold deref. by rewrite Hb.
Qed.

Lemma Find_routed t key p b : routed hash t key p b → Find hash t key = Ok (Bucket_Find b key).
Proof.
  intros (index & Hi & Hp & Hb). unfold Find. rewrite Hi.
  change (Ok ?x ≫= ?g) with (g x). cbv beta. rewrite Hp.
  change (Ok ?x ≫= ?g) with (g x). cbv beta. by rewrite Hb.
Qed.

Lemma Find_Ok_inv t key o :
  Find hash t key = Ok o → ∃ p b, routed hash t key p b ∧ o = Bucket_Find b key.
Proof.
  unfold Find. intros Hf. ok_inv Hf as index Hi. ok_inv Hf as p Hp. ok_inv Hf as b Hb.
  injection Hf as <-. exists p, b. split; [|done]. by exists index.
Qed.

Lemma Remove_routed t key p b :
  routed hash t key p b →
  Remove hash t key
  = Ok ((Bucket_Remove b key).1, with_heap (<[p := (Bucket_Remove b key).2]> (heap_ t)) t).
Proof.
  intros (index & Hi & Hp & Hb). unfold Remove. rewrite Hi.
  change (Ok ?x ≫= ?g) with (g x). cbv beta. rewrite Hp.
  change (Ok ?x ≫= ?g) with (g x). cbv beta. rewrite Hb.
  change (Ok ?x ≫= ?g) with (g x). cbv beta.
  by destruct (Bucket_Remove b key).
Qed.

Lemma routed_heap t key p b : routed hash t key p b → heap_ t !! p = Some b.
Proof. intros (index & _ & _ & Hb). by apply or_undefined_Ok in Hb. Qed.

Lemma routed_with_heap t key p b q b' :
  routed hash t key p b → heap_ t !! q = Some b' →
  ∀ b'', routed hash (with_heap (<[q := b'']> (heap_ t)) t) key p
           (if decide (p = q) then b'' else b).
Proof.
  intros (index & Hi & Hp & Hb) Hq b''. exists index. split; [done|]. split; [done|].
  apply or_undefined_Ok in Hb. unfold deref. simpl.
  destruct (decide (p = q)) as [->|Hne].
  - by rewrite list_lookup_insert_eq by (by eapply lookup_lt_Some).
  - rewrite list_lookup_insert_ne by done. by rewrite Hb.
Qed.

(** X1. In every table that calls of [Insert] and [Remove] produce from a
    new one, also between two rounds of the loop of [Insert], the global
    depth is between 0 and 31, the directory has [2 ^ global depth] slots,
    [GetNumBuckets] is the number of buckets allocated, and [GetLocalDepth]
    returns, for every slot of the directory, a depth between 0 and the
    global depth. *)
Theorem reachable_directory bucket_size t :
  reachable hash bucket_size t →
  0 ≤ GetGlobalDepth t ≤ 31
  ∧ Z.of_nat (length (dir_ t)) = 2 ^ GetGlobalDepth t
  ∧ GetNumBuckets t = Z.of_nat (length (heap_ t))
  ∧ ∀ i, 0 ≤ i < 2 ^ GetGlobalDepth t →
      ∃ d, GetLocalDepth t i = Ok d ∧ 0 ≤ d ≤ GetGlobalDepth t.
Proof.
  intros Hok%reachable_table_ok. pose proof Hok as [(Hgd & Hlen & _ & _ & Hnb) _].
  split; [done|]. split; [done|]. split; [done|].
  intros i Hi. destruct (table_ok_slot t i Hok Hi) as (p & b & Hp & Hb & _ & Hd).
  exists (depth_ b). split; [|done]. unfold GetLocalDepth, deref. rewrite Hp.
  change (Ok ?x ≫= ?g) with (g x). cbv beta. by rewrite Hb.
Qed.

(** X2. In every such table no bucket holds a key twice or holds more
    entries than the bucket size given to the constructor, which is the
    capacity of every bucket; and [Bucket::Find] returns only a value that
    is stored with the key. *)
Theorem reachable_buckets bucket_size t p b :
  reachable hash bucket_size t → heap_ t !! p = Some b →
  NoDup (keys b) ∧ (length (list_ b) ≤ bucket_size)%nat ∧ size_ b = bucket_size
  ∧ ∀ key value, Bucket_Find b key = Some value → (key, value) ∈ list_ b.
Proof.
  intros Hreach Hb. destruct (reachable_sized hash _ _ Hreach) as [Hsz Hbs].
  destruct (reachable_table_ok _ _ Hreach) as [_ Hbk].
  destruct (Forall_lookup_1 _ _ _ _ Hbk Hb) as [Hnd Hcap].
  pose proof (Forall_lookup_1 _ _ _ _ Hsz Hb) as Hsize. simpl in Hsize.
  split; [done|]. split; [lia|]. split; [congruence|].
  unfold Bucket_Find. clear. induction (list_ b) as [|[k v] l IH]; intros key value; simpl; [done|].
  destruct (decide (key = k)) as [->|Hne].
  - intros [= ->]. by left.
  - intros Hf. right. by apply IH.
Qed.

(** X3. On every such table of global depth at most 30, [Find] and
    [Remove] return for every key: no index is out of the directory and no
    slot dangles.  (At depth 31 the mask [(1 << 31) - 1] of [IndexOf]
    overflows [int].) *)
Theorem reachable_Find_returns bucket_size t key :
  reachable hash bucket_size t → GetGlobalDepth t ≤ 30 →
  (∃ o, Find hash t key = Ok o)
  ∧ (∃ flag t', Remove hash t key = Ok (flag, t')).
Proof.
  intros Hok%reachable_table_ok Hgd.
  destruct (table_ok_routed t key Hok Hgd) as (p & b & Hrouted & _).
  split.
  - eexists. by apply (Find_routed t key p b).
  - do 2 eexists. by apply (Remove_routed t key p b).
Qed.

Lemma GetLocalDepth_with_heap t p b b' i :
  heap_ t !! p = Some b → depth_ b' = depth_ b →
  GetLocalDepth (with_heap (<[p := b']> (heap_ t)) t) i = GetLocalDepth t i.
Proof.
  intros Hb Hd. unfold GetLocalDepth, dir_at, deref, GetDepth. simpl.
  destruct ((if bool_decide (0 ≤ i) then dir_ t !! Z.to_nat i else None) ?? DirIndexOutOfRange)
    as [q| | |]; try done.
  change (Ok q ≫= ?g) with (g q). cbv beta.
  destruct (decide (q = p)) as [->|Hne].
  - rewrite list_lookup_insert_eq by (by eapply lookup_lt_Some). rewrite Hb.
    simpl. by rewrite Hd.
  - by rewrite list_lookup_insert_ne.
Qed.

Lemma Remove_Ok_inv t key flag t' :
  Remove hash t key = Ok (flag, t') →
  ∃ p b, routed hash t key p b ∧ flag = (Bucket_Remove b key).1
         ∧ t' = with_heap (<[p := (Bucket_Remove b key).2]> (heap_ t)) t.
Proof.
  unfold Remove. intros Hs.
  ok_inv Hs as index Hi. ok_inv Hs as p Hp. ok_inv Hs as b Hb.
  exists p, b. split; [by exists index|].
  destruct (Bucket_Remove b key) as [fl b']. by injection Hs as <- <-.
Qed.

(** X4. After [Remove(key)] has returned, [Find(key)] finds nothing;
    [Remove] returns [true] exactly when [Find] found the key before it;
    and a second [Remove(key)] returns [false]. *)
Theorem Remove_then_Find bucket_size t key flag t' :
  reachable hash bucket_size t → Remove hash t key = Ok (flag, t') →
  Find hash t' key = Ok None
  ∧ (flag = true ↔ ∃ value, Find hash t key = Ok (Some value))
  ∧ ∃ t'', Remove hash t' key = Ok (false, t'').
Proof.
  intros Hreach Hrem. destruct (reachable_table_ok _ _ Hreach) as [_ Hbk].
  destruct (Remove_Ok_inv _ _ _ _ Hrem) as (p & b & Hrouted & -> & ->).
  pose proof (routed_heap _ _ _ _ Hrouted) as Hb.
  destruct (Forall_lookup_1 _ _ _ _ Hbk Hb) as [Hnd _].
  pose proof (routed_with_heap t key p b p b Hrouted Hb (Bucket_Remove b key).2) as Hrouted'.
  rewrite decide_True in Hrouted' by done.
  pose proof (Bucket_Remove_find b key Hnd) as Hgone.
  split; [|split].
  - rewrite (Find_routed _ _ _ _ Hrouted'). by rewrite Hgone.
  - rewrite Bucket_Remove_flag, (Find_routed _ _ _ _ Hrouted). split.
    + intros [value Hv]. exists value. by rewrite Hv.
    + intros [value [= Hv]]. by exists value.
  - rewrite (Remove_routed _ _ _ _ Hrouted'). eexists. f_equal. f_equal.
    destruct ((Bucket_Remove (Bucket_Remove b key).2 key).1) eqn:Hfl; [|done].
    apply Bucket_Remove_flag in Hfl as [? Hfl]. congruence.
Qed.

(** X5. [Remove(key)] changes neither the global depth, nor the number of
    buckets, nor the directory, nor a local depth, nor what [Find] returns
    for another key: it never merges buckets or shrinks the directory. *)
Theorem Remove_frame t key flag t' :
  Remove hash t key = Ok (flag, t') →
  GetGlobalDepth t' = GetGlobalDepth t ∧ GetNumBuckets t' = GetNumBuckets t
  ∧ dir_ t' = dir_ t ∧ length (heap_ t') = length (heap_ t)
  ∧ (∀ i, GetLocalDepth t' i = GetLocalDepth t i)
  ∧ ∀ key', key' ≠ key → Find hash t' key' = Find hash t key'.
Proof.
  intros Hrem.
  destruct (Remove_Ok_inv _ _ _ _ Hrem) as (p & b & Hrouted & -> & ->).
  pose proof (routed_heap _ _ _ _ Hrouted) as Hb.
  split; [done|]. split; [done|]. split; [done|]. split; [apply length_insert|]. split.
  - intros i. apply (GetLocalDepth_with_heap t p b); [done|apply Bucket_Remove_depth].
  - intros key' Hne. apply (Find_with_heap t p b); [done|].
    by apply Bucket_Remove_find_other.
Qed.

(** ** Insert without growth *)

Lemma Insert_accepting_frame fuel t key value p b b' :
  routed hash t key p b → Bucket_Insert b key value = (true, b') →
  ∃ t', Insert hash (S fuel) t key value = Ok t'
    ∧ GetGlobalDepth t' = GetGlobalDepth t ∧ GetNumBuckets t' = GetNumBuckets t
    ∧ dir_ t' = dir_ t ∧ heap_ t' = <[p := b']> (heap_ t)
    ∧ (∀ i, GetLocalDepth t' i = GetLocalDepth t i)
    ∧ Find hash t' key = Ok (Some value)
    ∧ ∀ key', key' ≠ key → Find hash t' key' = Find hash t key'.
Proof.
  intros Hrouted Hins. pose proof (routed_heap _ _ _ _ Hrouted) as Hb.
  pose proof (Insert_accepting hash fuel t key value p b b' Hrouted Hins) as Hret.
  eexists. split; [exact Hret|]. repeat (split; [done|]). split; [|split].
  - intros i. apply (GetLocalDepth_with_heap t p b); [done|].
    pose proof (Bucket_Insert_depth b key value) as Hd. by rewrite Hins in Hd.
  - by eapply Insert_find.
  - intros key' Hne. apply (Find_with_heap t p b); [done|].
    pose proof (Bucket_Insert_find_other b key value key' Hne) as Hf.
    by rewrite Hins in Hf.
Qed.

(** X6. [Insert] of a key that [Find] finds returns in the first round of
    its loop and overwrites the value, also when the bucket of the key is
    full: nothing is split, the depths and the directory are unchanged,
    every bucket holds the keys it held, in the same order, and [Find]
    returns what it returned for every other key. *)
Theorem Insert_existing_key fuel t key value v0 :
  Find hash t key = Ok (Some v0) →
  ∃ t', Insert hash (S fuel) t key value = Ok t'
    ∧ GetGlobalDepth t' = GetGlobalDepth t ∧ GetNumBuckets t' = GetNumBuckets t
    ∧ dir_ t' = dir_ t
    ∧ (∀ i, GetLocalDepth t' i = GetLocalDepth t i)
    ∧ keys <$> heap_ t' = keys <$> heap_ t
    ∧ Find hash t' key = Ok (Some value)
    ∧ ∀ key', key' ≠ key → Find hash t' key' = Find hash t key'.
Proof.
  intros (p & b & Hrouted & Hfound)%Find_Ok_inv.
  pose proof (routed_heap _ _ _ _ Hrouted) as Hb.
  destruct (items_assign key value (list_ b)) as [l'|] eqn:Ha; cycle 1.
  { apply items_assign_None in Ha. apply items_find_None in Ha.
    unfold Bucket_Find in Hfound. congruence. }
  assert (Bucket_Insert b key value = (true, SetItems l' b)) as Hins.
  { unfold Bucket_Insert. by rewrite Ha. }
  destruct (Insert_accepting_frame fuel t key value p b _ Hrouted Hins)
    as (t' & Hret & Hgd & Hnb & Hdir & Hheap & Hld & Hfind & Hother).
  exists t'. repeat (split; [done|]). split; [|done].
  rewrite Hheap, list_fmap_insert. apply list_insert_id.
  rewrite list_lookup_fmap, Hb. simpl. f_equal. unfold keys. simpl.
  apply items_assign_Some in Ha as (-> & _). done.
Qed.

(** X7. [Insert] of a key that is not in its bucket, when that bucket is
    not full, returns in the first round of its loop: the entry is appended
    to the list of the bucket, and the depths, the directory, the other
    buckets and what [Find] returns for other keys are unchanged. *)
Theorem Insert_with_room fuel t key value p b :
  routed hash t key p b → Bucket_Find b key = None →
  length (list_ b) ≠ size_ b →
  ∃ t', Insert hash (S fuel) t key value = Ok t'
    ∧ GetGlobalDepth t' = GetGlobalDepth t ∧ GetNumBuckets t' = GetNumBuckets t
    ∧ dir_ t' = dir_ t
    ∧ (∀ i, GetLocalDepth t' i = GetLocalDepth t i)
    ∧ heap_ t' = <[p := SetItems (list_ b ++ [(key, value)]) b]> (heap_ t)
    ∧ Find hash t' key = Ok (Some value)
    ∧ ∀ key', key' ≠ key → Find hash t' key' = Find hash t key'.
Proof.
  intros Hrouted Hnone Hroom.
  assert (Bucket_Insert b key value
          = (true, SetItems (list_ b ++ [(key, value)]) b)) as Hins.
  { unfold Bucket_Insert, IsFull.
    apply items_find_None in Hnone.
    apply (proj2 (items_assign_None key value _)) in Hnone. rewrite Hnone.
    by rewrite bool_decide_eq_false_2. }
  destruct (Insert_accepting_frame fuel t key value p b _ Hrouted Hins)
    as (t' & Hret & Hgd & Hnb & Hdir & Hheap & Hld & Hfind & Hother).
  exists t'. by repeat (split; [done|]).
Qed.

(** ** Growth *)

(** The slots [i] and [i + 2 ^ gd] of a doubled directory are slot [i] of
    the directory before. *)
Lemma lookup_doubled (dir : list nat) (gd h : Z) :
  0 ≤ gd → Z.of_nat (length dir) = 2 ^ gd →
  (dir ++ dir) !! Z.to_nat (h `mod` 2 ^ (gd + 1)) = dir !! Z.to_nat (h `mod` 2 ^ gd).
Proof.
  intros Hgd Hlen. rewrite Z.pow_add_r, Z.pow_1_r by lia.
  assert (0 < 2 ^ gd) as Hpow by (apply Z.pow_pos_nonneg; lia).
  rewrite Z.rem_mul_r by lia.
  destruct (Z.mod_pos_bound h (2 ^ gd) Hpow) as [Hlo Hhi].
  destruct (Z.mod_pos_bound (h `div` 2 ^ gd) 2) as [Hlo2 Hhi2]; [lia|].
  assert ((h `div` 2 ^ gd) `mod` 2 = 0 ∨ (h `div` 2 ^ gd) `mod` 2 = 1) as [-> | ->] by lia.
  - rewrite Z.mul_0_r, Z.add_0_r. apply lookup_app_l. lia.
  - rewrite Z.mul_1_r, lookup_app_r by lia. f_equal. lia.
Qed.

(** The three kinds of round, by what they change. *)
Lemma Insert_step_growth t key value r :
  table_ok t → Insert_step hash t key value = Ok r →
  (∃ t', r = Done t' ∧ global_depth_ t' = global_depth_ t
         ∧ num_buckets_ t' = num_buckets_ t)
  ∨ (∃ t', r = Again t' ∧ global_depth_ t' = global_depth_ t
           ∧ num_buckets_ t' = num_buckets_ t + 1)
  ∨ (∃ t', r = Again t' ∧ global_depth_ t' = global_depth_ t + 1
           ∧ num_buckets_ t' = num_buckets_ t
           ∧ dir_ t' = dir_ t ++ dir_ t ∧ heap_ t' = heap_ t
           ∧ ∃ p b, routed hash t key p b ∧ length (list_ b) = size_ b
                    ∧ depth_ b = global_depth_ t).
Proof.
  intros Hok Hs.
  destruct (Insert_step_Ok_inv _ _ _ _ Hs)
    as (index & p & b & Hi & Hp & Hb &
        [(b' & Hins & ->)|[(Hins & Hne & t' & Hr & ->)|(Hins & Heq & Hlt & ->)]]).
  - left. by eexists.
  - right. left.
    destruct (RedistributeBucket_table_ok t p b t' Hok Hb Hne Hr) as (_ & Hgd & Hnb).
    by exists t'.
  - right. right. eexists. repeat (split; [done|]).
    exists p, b. split; [|split; [|done]].
    + exists index. split; [done|]. split; [done|]. unfold deref. by rewrite Hb.
    + by apply Bucket_Insert_false in Hins as [_ ?].
Qed.

(** X8. A round of the loop of [Insert] that changes the global depth
    raises it by one and appends to the directory a copy of itself, without
    allocating a bucket; it happens only when the bucket of the key is full
    and its local depth is the global depth; and (unless the new depth is
    31) [Find] returns for every key what it returned before. *)
Theorem Insert_doubling_keeps_lookups bucket_size t key value t' :
  reachable hash bucket_size t →
  Insert_step hash t key value = Ok (Again t') →
  GetGlobalDepth t' ≠ GetGlobalDepth t →
  GetGlobalDepth t' = GetGlobalDepth t + 1
  ∧ GetNumBuckets t' = GetNumBuckets t
  ∧ dir_ t' = dir_ t ++ dir_ t ∧ heap_ t' = heap_ t
  ∧ (∃ p b, routed hash t key p b ∧ length (list_ b) = bucket_size
            ∧ GetDepth b = GetGlobalDepth t)
  ∧ (GetGlobalDepth t' ≤ 30 → ∀ key', Find hash t' key' = Find hash t key').
Proof.
  intros Hreach Hs Hne. pose proof (reachable_table_ok _ _ Hreach) as Hok.
  destruct (reachable_sized hash _ _ Hreach) as [Hsz Hbs].
  unfold GetGlobalDepth, GetNumBuckets, GetDepth in *.
  destruct (Insert_step_growth t key value _ Hok Hs)
    as [(t1 & [=] & _)|[(t1 & [= <-] & Hgd & _)|
        (t1 & [= <-] & Hgd & Hnb & Hdir & Hheap & p & b & Hrouted & Hfull & Hd)]];
    [done|].
  repeat (split; [done|]). split.
  - exists p, b. split; [done|]. split; [|done].
    pose proof (routed_heap _ _ _ _ Hrouted) as Hb.
    pose proof (Forall_lookup_1 _ _ _ _ Hsz Hb) as Hsize. simpl in Hsize. congruence.
  - intros Hgd30 key'. destruct Hok as [(Hgd0 & Hlen & _) _].
    unfold Find. destruct (IndexOf_Ok t' key') as [-> _]; [lia|].
    destruct (IndexOf_Ok t key') as [-> _]; [lia|].
    change (Ok ?x ≫= ?g) with (g x). cbv beta.
    unfold dir_at, deref. rewrite Hheap, Hdir, Hgd.
    assert (0 < 2 ^ global_depth_ t) as Hpow by (apply Z.pow_pos_nonneg; lia).
    assert (0 < 2 ^ (global_depth_ t + 1)) as Hpow' by (apply Z.pow_pos_nonneg; lia).
    rewrite !bool_decide_eq_true_2 by (apply Z.mod_pos_bound; lia).
    by rewrite lookup_doubled by lia.
Qed.

(** X9. [Insert] never lowers the global depth or the number of buckets
    and keeps the bucket size.  Each unit of growth takes a round of the
    loop: a call that returns within [fuel] rounds has raised the global
    depth and the number of buckets, taken together, by less than [fuel]. *)
Theorem Insert_only_grows bucket_size fuel t key value t' :
  reachable hash bucket_size t → Insert hash fuel t key value = Ok t' →
  GetGlobalDepth t ≤ GetGlobalDepth t' ∧ GetNumBuckets t ≤ GetNumBuckets t'
  ∧ bucket_size_ t' = bucket_size_ t
  ∧ (GetGlobalDepth t' - GetGlobalDepth t) + (GetNumBuckets t' - GetNumBuckets t)
    < Z.of_nat fuel.
Proof.
  unfold GetGlobalDepth, GetNumBuckets.
  revert t. induction fuel as [|n IH]; intros t Hreach; [done|].
  cbn [Insert]. intros Hs. ok_inv Hs as r Hr.
  pose proof (reachable_table_ok _ _ Hreach) as Hok.
  destruct (reachable_sized hash _ _ Hreach) as [Hsz _].
  destruct (Insert_step_sized hash _ _ _ _ Hsz Hr) as [_ Hbs].
  pose proof (reachable_round hash _ _ _ _ _ Hreach Hr) as Hreach'.
  destruct (Insert_step_growth t key value _ Hok Hr)
    as [(t1 & -> & Hgd & Hnb)|[(t1 & -> & Hgd & Hnb)|(t1 & -> & Hgd & Hnb & _)]];
    simpl in *.
  - injection Hs as <-. lia.
  - destruct (IH t1 Hreach' Hs) as (? & ? & ? & ?). split; [lia|]. split; [lia|].
    split; [congruence|lia].
  - destruct (IH t1 Hreach' Hs) as (? & ? & ? & ?). split; [lia|]. split; [lia|].
    split; [congruence|lia].
Qed.

(** ** A split moves entries, it does not lose them *)

Lemma redistribute_items_sibling mask pre_index pa items kept sib dir kept' sib' dir' :
  redistribute_items hash mask pre_index pa items kept sib dir = Ok (kept', sib', dir') →
  NoDup (list_ sib ++ items).*1 →
  (length (list_ sib) + length items ≤ size_ sib)%nat →
  list_ sib' = list_ sib ++ filter (λ kv, ¬ Z.land (hash kv.1) mask = pre_index) items.
Proof.
  revert kept sib dir. induction items as [|[k v] items IH]; intros kept sib dir; simpl.
  - intros [= _ <- _] _ _. by rewrite app_nil_r.
  - rewrite filter_cons. simpl. intros Hr Hnd Hlen.
    rewrite fmap_app in Hnd. simpl in Hnd.
    apply NoDup_app in Hnd as (Hnd1 & Hdisj & [Hk Hnd2]%NoDup_cons).
    destruct (decide (Z.land (hash k) mask ≠ pre_index)) as [Hmove|Hstay].
    + case_bool_decide; [|done].
      assert ((Bucket_Insert sib k v).2 = SetItems (list_ sib ++ [(k, v)]) sib) as Hins.
      { unfold Bucket_Insert, IsFull.
        rewrite (proj2 (items_assign_None k v (list_ sib))); cycle 1.
        { intros Hin. apply (Hdisj k Hin). by left. }
        by rewrite bool_decide_eq_false_2 by lia. }
      rewrite Hins in Hr. apply IH in Hr; simpl.
      * rewrite Hr. simpl. by rewrite <- app_assoc.
      * rewrite <- app_assoc. simpl. rewrite fmap_app. simpl.
        apply NoDup_app. split; [done|]. split; [done|]. by apply NoDup_cons.
      * rewrite length_app. simpl. lia.
    + apply IH in Hr; [done| |lia].
      rewrite fmap_app. apply NoDup_app. split; [done|]. split; [|done].
      intros x Hx Hin. apply (Hdisj x Hx). by right.
Qed.

(** X10. [RedistributeBucket] loses no entry and invents none: the bucket
    left at the address of the split one and the new bucket, appended to the
    heap, hold together the entries of the split bucket, each in the
    original order; both have the local depth raised by one and the capacity
    of the table; the number of buckets grows by one, and the global depth
    and the length of the directory stay. *)
Theorem RedistributeBucket_keeps_entries bucket_size t p b t' :
  reachable hash bucket_size t → heap_ t !! p = Some b →
  RedistributeBucket hash t p = Ok t' →
  ∃ b1 sib,
    heap_ t' = <[p := b1]> (heap_ t) ++ [sib]
    ∧ list_ b1 ++ list_ sib ≡ₚ list_ b
    ∧ list_ b1 `sublist_of` list_ b ∧ list_ sib `sublist_of` list_ b
    ∧ GetDepth b1 = GetDepth b + 1 ∧ GetDepth sib = GetDepth b + 1
    ∧ size_ b1 = bucket_size ∧ size_ sib = bucket_size
    ∧ GetGlobalDepth t' = GetGlobalDepth t ∧ GetNumBuckets t' = GetNumBuckets t + 1
    ∧ length (dir_ t') = length (dir_ t).
Proof.
  intros Hreach Hb Hr. destruct (reachable_sized hash _ _ Hreach) as [Hsz Hbs].
  destruct (reachable_table_ok _ _ Hreach) as [_ Hbk].
  destruct (Forall_lookup_1 _ _ _ _ Hbk Hb) as [Hnd Hcap].
  pose proof (Forall_lookup_1 _ _ _ _ Hsz Hb) as Hsize. simpl in Hsize.
  unfold RedistributeBucket, IncrementDepth, deref in Hr. rewrite Hb in Hr.
  change (Some b ?? _ ≫= ?g) with (g b) in Hr. cbv beta in Hr.
  ok_inv Hr as b2 Hb2. ok_inv Hb2 as d Hd. injection Hb2 as <-.
  apply int_incr_Ok_inv in Hd as [_ ->].
  ok_inv Hr as nb Hnb'. apply int_incr_Ok_inv in Hnb' as [_ ->].
  ok_inv Hr as mask Hmask. ok_inv Hr as pre_mask Hpre.
  ok_inv Hr as first Hfirst. ok_inv Hr as res Hres.
  destruct res as [[kept sib'] dir']. injection Hr as <-.
  unfold GetItems, GetDepth in *. simpl in Hres.
  pose proof (redistribute_items_size hash _ _ _ _ _ _ _ _ _ _ Hres) as Hss.
  pose proof (redistribute_items_sibling _ _ _ _ _ _ _ _ _ _ Hres) as Hsl.
  apply redistribute_items_Ok in Hres as (-> & Hlen' & _ & Hsd & _).
  simpl in *. specialize (Hsl Hnd ltac:(lia)).
  eexists _, sib'. split; [reflexivity|]. simpl. rewrite Hsl.
  split; [apply filter_app_complement|].
  split; [apply sublist_filter|]. split; [apply sublist_filter|].
  repeat split; try done; congruence.
Qed.

End Tables.

(** ** Instances *)

Lemma reachable_two_keys : reachable std_hash_int 2 two_keys.
Proof.
  apply (Insert_reachable std_hash_int 2 1%nat
           (mkTable 0 2 1 [0%nat] [mkBucket 2 0 [(1, 10)]]) 2 20); [|reflexivity].
  apply (Insert_reachable std_hash_int 2 1%nat
           (mkTable 0 2 1 [0%nat] [mkBucket 2 0 []]) 1 10); [|reflexivity].
  apply reachable_new. reflexivity.
Qed.

Lemma reachable_two_keys_doubled : reachable std_hash_int 2 two_keys_doubled.
Proof.
  apply (reachable_round std_hash_int 2 two_keys 3 30 (Again two_keys_doubled)).
  - apply reachable_two_keys.
  - reflexivity.
Qed.

Lemma reachable_directory_witness :
  reachable std_hash_int 2 two_keys_doubled
  ∧ 0 ≤ GetGlobalDepth two_keys_doubled ≤ 31
  ∧ Z.of_nat (length (dir_ two_keys_doubled)) = 2 ^ GetGlobalDepth two_keys_doubled
  ∧ GetNumBuckets two_keys_doubled = Z.of_nat (length (heap_ two_keys_doubled)).
Proof.
  split; [exact reachable_two_keys_doubled|].
  destruct (reachable_directory std_hash_int 2 two_keys_doubled
              reachable_two_keys_doubled) as (Hgd & Hlen & Hnb & _).
  split; [exact Hgd|]. split; [exact Hlen|exact Hnb].
Defined.

Lemma reachable_buckets_witness :
  reachable std_hash_int 2 two_keys
  ∧ heap_ two_keys !! 0%nat = Some (mkBucket 2 0 [(1, 10); (2, 20)])
  ∧ NoDup [1; 2] ∧ (2 ≤ 2)%nat.
Proof.
  split; [exact reachable_two_keys|]. split; [reflexivity|].
  destruct (reachable_buckets std_hash_int 2 two_keys 0
              (mkBucket 2 0 [(1, 10); (2, 20)]) reachable_two_keys)
    as (Hnd & Hlen & _); [reflexivity|].
  split; [exact Hnd|exact Hlen].
Defined.

Lemma reachable_Find_returns_witness :
  reachable std_hash_int 2 two_keys ∧ GetGlobalDepth two_keys ≤ 30
  ∧ (∃ o, Find std_hash_int two_keys 2 = Ok o)
  ∧ (∃ flag t', Remove std_hash_int two_keys 2 = Ok (flag, t')).
Proof.
  split; [exact reachable_two_keys|]. split; [vm_compute; discriminate|].
  apply (reachable_Find_returns std_hash_int 2 two_keys 2 reachable_two_keys).
  vm_compute. discriminate.
Defined.

Lemma Remove_then_Find_witness :
  reachable std_hash_int 2 two_keys
  ∧ Remove std_hash_int two_keys 1
    = Ok (true, mkTable 0 2 1 [0%nat] [mkBucket 2 0 [(2, 20)]])
  ∧ Find std_hash_int (mkTable 0 2 1 [0%nat] [mkBucket 2 0 [(2, 20)]]) 1 = Ok None.
Proof.
  split; [exact reachable_two_keys|]. split; [reflexivity|].
  apply (Remove_then_Find std_hash_int 2 two_keys 1 true _ reachable_two_keys).
  reflexivity.
Defined.

Lemma Remove_frame_witness :
  Remove std_hash_int two_keys 1
  = Ok (true, mkTable 0 2 1 [0%nat] [mkBucket 2 0 [(2, 20)]])
  ∧ ∀ key', key' ≠ 1 →
      Find std_hash_int (mkTable 0 2 1 [0%nat] [mkBucket 2 0 [(2, 20)]]) key'
      = Find std_hash_int two_keys key'.
Proof.
  split; [reflexivity|].
  apply (Remove_frame std_hash_int two_keys 1 true _). reflexivity.
Defined.

Lemma Insert_existing_key_witness :
  Find std_hash_int two_keys 2 = Ok (Some 20)
  ∧ ∃ t', Insert std_hash_int 1 two_keys 2 21 = Ok t'
      ∧ GetGlobalDepth t' = GetGlobalDepth two_keys
      ∧ GetNumBuckets t' = GetNumBuckets two_keys.
Proof.
  assert (Find std_hash_int two_keys 2 = Ok (Some 20)) as Hfind by reflexivity.
  split; [exact Hfind|].
  destruct (Insert_existing_key std_hash_int 0 two_keys 2 21 20 Hfind)
    as (t' & Hret & Hgd & Hnb & _).
  exists t'. split; [exact Hret|]. split; [exact Hgd|exact Hnb].
Defined.

Lemma Insert_with_room_witness :
  routed std_hash_int (mkTable 0 2 1 [0%nat] [mkBucket 2 0 [(1, 10)]]) 2 0
    (mkBucket 2 0 [(1, 10)])
  ∧ ∃ t', Insert std_hash_int 1 (mkTable 0 2 1 [0%nat] [mkBucket 2 0 [(1, 10)]]) 2 20
          = Ok t'
      ∧ Find std_hash_int t' 2 = Ok (Some 20).
Proof.
  assert (routed std_hash_int (mkTable 0 2 1 [0%nat] [mkBucket 2 0 [(1, 10)]]) 2 0
            (mkBucket 2 0 [(1, 10)])) as Hrouted.
  { exists 0. repeat split; reflexivity. }
  split; [exact Hrouted|].
  destruct (Insert_with_room std_hash_int 0 _ 2 20 0%nat _ Hrouted)
    as (t' & Hret & _ & _ & _ & _ & _ & Hfind & _); [reflexivity|simpl; lia|].
  exists t'. split; [exact Hret|exact Hfind].
Defined.

Lemma Insert_doubling_keeps_lookups_witness :
  reachable std_hash_int 2 two_keys
  ∧ Insert_step std_hash_int two_keys 3 30 = Ok (Again two_keys_doubled)
  ∧ GetGlobalDepth two_keys_doubled = GetGlobalDepth two_keys + 1
  ∧ ∀ key', Find std_hash_int two_keys_doubled key' = Find std_hash_int two_keys key'.
Proof.
  split; [exact reachable_two_keys|]. split; [reflexivity|].
  destruct (Insert_doubling_keeps_lookups std_hash_int 2 two_keys 3 30 two_keys_doubled
              reachable_two_keys) as (Hgd & _ & _ & _ & _ & Hfind);
    [reflexivity|vm_compute; discriminate|].
  split; [exact Hgd|]. apply Hfind. vm_compute. discriminate.
Defined.

Lemma Insert_only_grows_witness :
  reachable std_hash_int 2 two_keys
  ∧ ∃ t', Insert std_hash_int 3 two_keys 3 30 = Ok t'
      ∧ GetGlobalDepth two_keys ≤ GetGlobalDepth t'
      ∧ GetNumBuckets two_keys ≤ GetNumBuckets t'.
Proof.
  split; [exact reachable_two_keys|]. eexists. split; [reflexivity|].
  edestruct (Insert_only_grows std_hash_int 2 3 two_keys 3 30)
    as (Hgd & Hnb & _); [exact reachable_two_keys|reflexivity|].
  split; [exact Hgd|exact Hnb].
Defined.

Lemma RedistributeBucket_keeps_entries_witness :
  reachable std_hash_int 2 two_keys_doubled
  ∧ ∃ t', RedistributeBucket std_hash_int two_keys_doubled 0 = Ok t'
      ∧ ∃ b1 sib, heap_ t' = <[0%nat := b1]> (heap_ two_keys_doubled) ++ [sib]
          ∧ list_ b1 ++ list_ sib ≡ₚ [(1, 10); (2, 20)].
Proof.
  split; [exact reachable_two_keys_doubled|]. eexists. split; [reflexivity|].
  edestruct (RedistributeBucket_keeps_entries std_hash_int 2 two_keys_doubled 0
               (mkBucket 2 0 [(1, 10); (2, 20)]))
    as (b1 & sib & Hheap & Hperm & _);
    [exact reachable_two_keys_doubled|reflexivity|reflexivity|].
  exists b1, sib. split; [exact Hheap|exact Hperm].
Defined.

End HashTableMore.

(** * The replacer: histories, victims and pinned frames *)

Module ReplacerMore.
Import Replacer ReplacerFacts.

Implicit Types (s : LRUKReplacer) (h : gmap Z Frame) (fr : Frame) (f g : Z).

(** ** Parameters and clock under the calls *)

Lemma Remove_params s f :
  k_ (Remove s f).1 = k_ s ∧ replacer_size_ (Remove s f).1 = replacer_size_ s
  ∧ current_timestamp_ (Remove s f).1 = current_timestamp_ s.
Proof.
  unfold Remove. destruct (hash_ s !! f) as [fr|]; [|done]. by destruct (evictable_ fr).
Qed.

Lemma step_params s c :
  k_ (step s c).1 = k_ s ∧ replacer_size_ (step s c).1 = replacer_size_ s.
Proof.
  destruct c as [f|f b|order|f]; simpl.
  - by destruct (RecordAccess_shape s f) as [[_ ->]|[(_ & q & -> & _)|[_ ->]]].
  - unfold SetEvictable. by destruct (hash_ s !! f).
  - destruct (Evict_state order s) as [->|[cand ->]]; [done|].
    by destruct (Remove_params s cand) as (? & ? & _).
  - by destruct (Remove_params s f) as (? & ? & _).
Qed.

(** ** Histories *)

Lemma new_stamps_ok num_frames k : stamps_ok (new num_frames k).
Proof.
  split; [done|]. split; [apply map_Forall_empty|].
  intros f g fr fg x Hf. simpl in Hf. by rewrite lookup_empty in Hf.
Qed.

Lemma history_ok_weaken s s' f fr :
  replacer_size_ s' = replacer_size_ s → k_ s' = k_ s →
  current_timestamp_ s ≤ current_timestamp_ s' →
  history_ok s f fr → history_ok s' f fr.
Proof.
  intros Hsz Hk Hc (Hf & Hne & Hlen & Hsort & Hpast). unfold history_ok.
  rewrite Hsz, Hk. repeat (split; [done|]).
  eapply Forall_impl; [exact Hpast|]. simpl. lia.
Qed.

Lemma RecordAccess_stamps_ok s f :
  (1 ≤ k_ s)%nat → stamps_ok s → stamps_ok (RecordAccess s f).1.
Proof.
  intros Hk (Hclock & Hhist & Hapart).
  destruct (RecordAccess_shape s f) as [[_ ->]|[(Hle & q & -> & Hq)|[[_ Hk0] _]]];
    [done| |lia].
  set (c := current_timestamp_ s) in *.
  set (s' := mkReplacer _ _ _ _ _).
  (* what is known of [q], the part of the old history that is kept *)
  assert (StronglySorted Z.lt q ∧ Forall (λ x, 0 ≤ x < c) q
          ∧ (length q < k_ s)%nat
          ∧ ∀ x, x ∈ q → ∃ fr, hash_ s !! f = Some fr ∧ x ∈ time_ fr) as (Hqs & Hqp & Hql & Hqin).
  { unfold frame_at in Hq. destruct (hash_ s !! f) as [fr|] eqn:Hf; simpl in Hq.
    - destruct (Hhist f fr Hf) as (_ & _ & Hlen & Hsort & Hpast).
      destruct Hq as [[-> Hne]|[[x Hx] Hlen']].
      + repeat split; [done|done|lia|]. intros x Hx. by exists fr.
      + rewrite Hx in Hsort, Hpast, Hlen.
        apply StronglySorted_inv in Hsort as [Hsort _].
        apply Forall_cons in Hpast as [_ Hpast]. simpl in Hlen.
        repeat split; [done|done|lia|]. intros y Hy. exists fr. split; [done|].
        rewrite Hx. by right.
    - destruct Hq as [[-> Hne]|[[x Hx] _]]; [|done].
      repeat split; [constructor|constructor|simpl; lia|].
      intros x Hx. by apply elem_of_nil in Hx. }
  split; [simpl; lia|]. split.
  - apply map_Forall_insert_2.
    + unfold history_ok. simpl. split; [lia|]. split; [by destruct q|].
      rewrite length_app. simpl. split; [lia|]. split.
      * apply StronglySorted_app. split; [|split; [done|repeat constructor]].
        intros x1 x2 Hx1 ->%list_elem_of_singleton.
        rewrite Forall_forall in Hqp. apply Hqp in Hx1. lia.
      * apply Forall_app. split.
        -- eapply Forall_impl; [exact Hqp|]. simpl. lia.
        -- apply Forall_singleton. lia.
    + eapply map_Forall_impl; [exact Hhist|]. intros g fg.
      apply (history_ok_weaken s s'); simpl; [done|done|lia].
  - intros g1 g2 fr1 fr2 x. simpl. rewrite !lookup_insert.
    assert (∀ g fg, hash_ s !! g = Some fg → x ∈ time_ fg → x < c) as Hold.
    { intros g fg Hg Hx. destruct (Hhist g fg Hg) as (_ & _ & _ & _ & Hpast).
      rewrite Forall_forall in Hpast. apply Hpast in Hx. lia. }
    assert (∀ g fg, hash_ s !! g = Some fg → x ∈ time_ fg →
                    x ∈ q ++ [c] → f = g) as Hnew.
    { intros g fg Hg Hx [Hin| ->%list_elem_of_singleton]%elem_of_app.
      - destruct (Hqin x Hin) as (fr & Hfr & Hxfr).
        exact (Hapart f g fr fg x Hfr Hg Hxfr Hx).
      - apply (Hold g fg Hg) in Hx. lia. }
    destruct (decide (f = g1)) as [<-|Hne1], (decide (f = g2)) as [<-|Hne2]; try done.
    + intros [= <-] Hg2 Hx1 Hx2. simpl in Hx1. by eapply Hnew.
    + intros Hg1 [= <-] Hx1 Hx2. simpl in Hx2. symmetry. by eapply Hnew.
    + by apply Hapart.
Qed.

Lemma SetEvictable_stamps_ok s f b : stamps_ok s → stamps_ok (SetEvictable s f b).
Proof.
  intros (Hclock & Hhist & Hapart). unfold SetEvictable.
  destruct (hash_ s !! f) as [fr|] eqn:Hf; [|done].
  split; [done|]. split.
  - apply map_Forall_insert_2; [|done]. apply (Hhist f fr Hf).
  - intros g1 g2 fr1 fr2 x. simpl. rewrite !lookup_insert.
    destruct (decide (f = g1)) as [<-|Hne1], (decide (f = g2)) as [<-|Hne2]; try done.
    + intros [= <-] Hg2 Hx1 Hx2. simpl in Hx1. by eapply Hapart.
    + intros Hg1 [= <-] Hx1 Hx2. simpl in Hx2. by eapply Hapart.
    + by apply Hapart.
Qed.

Lemma Remove_stamps_ok s f : stamps_ok s → stamps_ok (Remove s f).1.
Proof.
  intros (Hclock & Hhist & Hapart). unfold Remove.
  destruct (hash_ s !! f) as [fr|] eqn:Hf; [|done].
  destruct (evictable_ fr); simpl; [|done].
  split; [done|]. split.
  - by apply map_Forall_delete.
  - intros g1 g2 fr1 fr2 x. simpl.
    intros [_ H1]%lookup_delete_Some [_ H2]%lookup_delete_Some. by apply Hapart.
Qed.

Lemma step_stamps_ok s c : (1 ≤ k_ s)%nat → stamps_ok s → stamps_ok (step s c).1.
Proof.
  intros Hk Hok. destruct c as [f|f b|order|f]; simpl.
  - by apply RecordAccess_stamps_ok.
  - by apply SetEvictable_stamps_ok.
  - destruct (Evict_state order s) as [->|[cand ->]]; [done|].
    by apply Remove_stamps_ok.
  - by apply Remove_stamps_ok.
Qed.

Lemma run_stamps_ok s cs : (1 ≤ k_ s)%nat → stamps_ok s → stamps_ok (run s cs).
Proof.
  revert s. induction cs as [|c cs IH]; intros s Hk Hok; simpl; [done|].
  apply IH; [|by apply step_stamps_ok].
  destruct (step_params s c) as [-> _]. done.
Qed.

Lemma run_params s cs :
  k_ (run s cs) = k_ s ∧ replacer_size_ (run s cs) = replacer_size_ s.
Proof.
  revert s. induction cs as [|c cs IH]; intros s; simpl; [done|].
  destruct (IH (step s c).1) as [-> ->]. apply step_params.
Qed.

(** X11. After any sequence of calls on a new replacer with [k >= 1], a
    tracked frame has an identifier that is at most [num_frames], and a
    history of at least one and at most [k] timestamps, strictly increasing,
    all of them ticks of the clock that are past; and no timestamp is in the
    histories of two frames. *)
Theorem run_histories num_frames k cs f fr :
  (1 ≤ k)%nat → hash_ (run (new num_frames k) cs) !! f = Some fr →
  f ≤ static_cast_int num_frames
  ∧ (1 ≤ length (time_ fr) ≤ k)%nat
  ∧ StronglySorted Z.lt (time_ fr)
  ∧ Forall (λ x, 0 ≤ x < current_timestamp_ (run (new num_frames k) cs)) (time_ fr)
  ∧ ∀ g fg x, hash_ (run (new num_frames k) cs) !! g = Some fg →
              x ∈ time_ fr → x ∈ time_ fg → f = g.
Proof.
  intros Hk Hf.
  destruct (run_params (new num_frames k) cs) as [Hkr Hsr]. simpl in Hkr, Hsr.
  destruct (run_stamps_ok (new num_frames k) cs Hk (new_stamps_ok _ _))
    as (_ & Hhist & Hapart).
  destruct (Hhist f fr Hf) as (Hid & Hne & Hlen & Hsort & Hpast).
  rewrite Hkr in Hlen. rewrite Hsr in Hid.
  split; [done|]. split; [destruct (time_ fr); simpl in *; [done|lia]|].
  split; [done|]. split; [done|].
  intros g fg x Hg Hx1 Hx2. by eapply Hapart.
Qed.

(** ** The window of the last [k_] accesses *)

Lemma run_snoc s cs c : run s (cs ++ [c]) = (step (run s cs) c).1.
Proof. unfold run. by rewrite foldl_snoc. Qed.

(** X12. [n] calls of [RecordAccess] in a row for one frame, whose
    identifier passes the range check, leave the frame with the last [k_] of
    its old timestamps followed by the [n] ticks the calls consumed; they
    keep its evictable flag and [Size()], and advance the clock by [n]. *)
Theorem RecordAccess_window s f n :
  (1 ≤ k_ s)%nat → ¬ f > static_cast_int (replacer_size_ s) →
  (length (time_ (frame_at s f)) ≤ k_ s)%nat →
  time_ (frame_at (run s (replicate n (CallRecordAccess f))) f)
  = drop (length (time_ (frame_at s f)) + n - k_ s)
      (time_ (frame_at s f) ++ seqZ (current_timestamp_ s) (Z.of_nat n))
  ∧ evictable_ (frame_at (run s (replicate n (CallRecordAccess f))) f)
    = evictable_ (frame_at s f)
  ∧ current_timestamp_ (run s (replicate n (CallRecordAccess f)))
    = current_timestamp_ s + Z.of_nat n
  ∧ Size (run s (replicate n (CallRecordAccess f))) = Size s.
Proof.
  intros Hk Hle Hlen. induction n as [|n IH].
  - simpl. rewrite app_nil_r. replace (length _ + 0 - k_ s)%nat with 0%nat by lia.
    rewrite drop_0. repeat split. lia.
  - rewrite replicate_S_end, run_snoc.
    set (sn := run s (replicate n (CallRecordAccess f))) in *.
    destruct IH as (Htime & Hflag & Hclock & Hsize).
    destruct (run_params s (replicate n (CallRecordAccess f))) as [Hkn Hsn].
    fold sn in Hkn, Hsn. cbn [step fst].
    destruct (RecordAccess_shape sn f) as [[Hgt _]|[(_ & q & -> & Hq)|[[_ Hk0] _]]];
      [by rewrite Hsn in Hgt| |lia].
    cbn [fst]. set (s1 := mkReplacer _ _ _ _ _).
    assert (frame_at s1 f
            = mkFrame (q ++ [current_timestamp_ sn]) (evictable_ (frame_at sn f))) as ->.
    { unfold frame_at at 1. simpl. by rewrite lookup_insert_eq. }
    cbn [time_ evictable_]. subst s1. cbn [current_timestamp_ Size curr_size_].
    rewrite Hclock.
    split; [|split; [done|split; [lia|done]]].
    rewrite seqZ_S, app_assoc.
    set (L := time_ (frame_at s f) ++ seqZ (current_timestamp_ s) (Z.of_nat n)) in *.
    assert (length L = (length (time_ (frame_at s f)) + n)%nat) as HL.
    { unfold L. rewrite length_app, length_seqZ. lia. }
    rewrite <- HL in Htime. replace (_ + S n - _)%nat with (length L + 1 - k_ s)%nat by lia.
    rewrite Htime in Hq. rewrite Hkn in Hq.
    destruct Hq as [[-> Hne]|[[y Hy] Hlen']].
    + rewrite length_drop in Hne.
      replace (length L - k_ s)%nat with 0%nat by lia.
      replace (length L + 1 - k_ s)%nat with 0%nat by lia. by rewrite !drop_0.
    + assert (length (drop (length L - k_ s) L) = k_ s) as Hfull
        by (rewrite Hy; simpl; lia).
      rewrite length_drop in Hfull.
      replace (length L + 1 - k_ s)%nat with ((length L - k_ s) + 1)%nat by lia.
      rewrite drop_app_le by lia. f_equal.
      by rewrite <- drop_drop, Hy.
Qed.

(** ** Evict *)

Lemma oldest_elem_of fr : time_ fr ≠ [] → oldest fr ∈ time_ fr.
Proof. unfold oldest. destruct (time_ fr); [done|]. intros _. by left. Qed.

(** The result of the loop of [Evict], read off the map. *)
Lemma Evict_scan_result order s :
  tracked_ok s → enumerates order s →
  (Evict_scan s order (-1) = Ok (-1)
   ∧ ∀ f fr, hash_ s !! f = Some fr → evictable_ fr = false)
  ∨ ∃ c fc, Evict_scan s order (-1) = Ok c ∧ c ≠ -1
      ∧ hash_ s !! c = Some fc ∧ evictable_ fc = true
      ∧ ∀ g fg, hash_ s !! g = Some fg → evictable_ fg = true → ¬ before s fg fc.
Proof.
  intros Hok Henum.
  destruct (Evict_scan_least s order (-1) Hok) as (c & Hscan & Hres).
  { intros f fr Hf. by apply (enumerates_lookup order s). }
  { by left. }
  destruct Hres as [(-> & _ & Hnone)|(fc & Hfc & He & _ & Hleast)].
  - left. split; [done|]. intros f fr Hf. apply (Hnone f fr).
    by apply (enumerates_lookup order s).
  - right. exists c, fc. destruct (Hok c fc Hfc) as (Hc & _).
    repeat (split; [done|]). intros g fg Hg Hge.
    apply (Hleast g fg); [|done]. by apply (enumerates_lookup order s).
Qed.

(** X13. The result of [Evict], and the state it leaves, do not depend on
    the order in which [unordered_map] enumerates the frames, when no
    timestamp is in the histories of two frames (and no tracked frame has
    the identifier -1, which [Evict] uses for "no frame"). *)
Theorem Evict_order_independent order1 order2 s :
  tracked_ok s → stamps_apart s →
  enumerates order1 s → enumerates order2 s →
  Evict order1 s = Evict order2 s.
Proof.
  intros Hok Hapart H1 H2.
  assert (Evict_scan s order1 (-1) = Evict_scan s order2 (-1)) as Hscan; cycle 1.
  { unfold Evict. by rewrite Hscan. }
  destruct (Evict_scan_result order1 s Hok H1)
    as [[-> Hnone1]|(c1 & fc1 & -> & _ & Hc1 & He1 & Hleast1)],
     (Evict_scan_result order2 s Hok H2)
    as [[-> Hnone2]|(c2 & fc2 & -> & _ & Hc2 & He2 & Hleast2)].
  - done.
  - specialize (Hnone1 c2 fc2 Hc2). congruence.
  - specialize (Hnone2 c1 fc1 Hc1). congruence.
  - f_equal. pose proof (Hleast1 c2 fc2 Hc2 He2) as Hn1.
    pose proof (Hleast2 c1 fc1 Hc1 He1) as Hn2.
    destruct (Hok c1 fc1 Hc1) as (_ & Hne1 & Hlen1).
    destruct (Hok c2 fc2 Hc2) as (_ & Hne2 & Hlen2).
    assert (oldest fc1 = oldest fc2) as Heq by (unfold before in *; lia).
    apply (Hapart c1 c2 fc1 fc2 (oldest fc1) Hc1 Hc2).
    + by apply oldest_elem_of.
    + rewrite Heq. by apply oldest_elem_of.
Qed.

(** ** Size *)

Lemma evictable_count_le h : (evictable_count h ≤ size h)%nat.
Proof. unfold evictable_count. apply map_subseteq_size, map_filter_subseteq. Qed.

Lemma evictable_count_0 h :
  evictable_count h = 0%nat ↔ ∀ f fr, h !! f = Some fr → evictable_ fr = false.
Proof.
  unfold evictable_count. rewrite map_size_empty_iff, map_empty_filter. split.
  - intros Hall f fr Hf. specialize (Hall f fr Hf). simpl in Hall.
    by destruct (evictable_ fr).
  - intros Hall f fr Hf. simpl. rewrite (Hall f fr Hf). done.
Qed.

(** X14. After any sequence of calls on a new replacer, [Size()] is not
    negative and is at most the number of tracked frames. *)
Theorem Size_bounds num_frames k cs :
  0 ≤ Size (run (new num_frames k) cs)
       ≤ Z.of_nat (size (hash_ (run (new num_frames k) cs))).
Proof.
  pose proof (run_count_ok _ cs (new_count_ok num_frames k)) as Hok.
  unfold count_ok in Hok. rewrite Hok.
  pose proof (evictable_count_le (hash_ (run (new num_frames k) cs))). lia.
Qed.

(** X15. On a state in which [Size()] counts the evictable frames, no
    tracked frame has the identifier -1, which [Evict] uses for "no frame",
    and every history holds between one and [k_] timestamps (as after any
    sequence of calls on a new replacer, [k >= 1], that never names frame
    -1): [Evict] returns [false] exactly when [Size()] is 0, and a frame
    when [Size()] is positive; when it returns a frame, [Size()] drops by
    one, that frame alone is forgotten, the clock is not advanced, and the
    state is again such a state. *)
Theorem Evict_exactly_when_Size_positive order s :
  count_ok s → tracked_ok s → enumerates order s →
  ((Evict order s).2 = Ok None ↔ Size s = 0)
  ∧ (0 < Size s → ∃ v, (Evict order s).2 = Ok (Some v))
  ∧ ∀ v, (Evict order s).2 = Ok (Some v) →
      Size (Evict order s).1 = Size s - 1
      ∧ hash_ (Evict order s).1 = delete v (hash_ s)
      ∧ current_timestamp_ (Evict order s).1 = current_timestamp_ s
      ∧ count_ok (Evict order s).1 ∧ tracked_ok (Evict order s).1.
Proof.
  intros Hcount Hok Henum. unfold count_ok in Hcount.
  pose proof (evictable_count_0 (hash_ s)) as Hzero.
  unfold Evict.
  destruct (Evict_scan_result order s Hok Henum)
    as [[-> Hnone]|(c & fc & -> & Hc & Hfc & He & _)].
  - rewrite decide_False by (intros Hne; by apply Hne). simpl.
    pose proof (proj2 Hzero Hnone) as Hz. split; [split; [lia|done]|]. split; [lia|done].
  - rewrite decide_True by done. unfold Remove. rewrite Hfc, He. simpl.
    assert (evictable_count (hash_ s) ≠ 0%nat) as Hpos.
    { intros Hz. pose proof (proj1 Hzero Hz c fc Hfc). congruence. }
    split; [split; [done|lia]|]. split; [by eexists|].
    intros v [= <-]. repeat (split; [done|]).
    pose proof (Remove_count_ok s c) as Hrc. pose proof (Remove_tracked_ok s c Hok) as Hrt.
    unfold Remove in Hrc, Hrt. rewrite Hfc, He in Hrc, Hrt. simpl in Hrc, Hrt.
    split; [by apply Hrc|done].
Qed.

(** ** Pinning, removing *)

Lemma Remove_keeps_tracked s f g :
  is_Some (hash_ s !! g) → evictable_ (frame_at s g) = false →
  is_Some (hash_ (Remove s f).1 !! g).
Proof.
  intros Hg Hflag. unfold Remove.
  destruct (hash_ s !! f) as [fr|] eqn:Hf; [|done].
  destruct (evictable_ fr) eqn:He; simpl; [|done].
  rewrite lookup_delete_ne; [done|]. intros <-.
  unfold frame_at in Hflag. rewrite Hf in Hflag. simpl in Hflag. congruence.
Qed.

Lemma step_keeps_tracked s c g :
  is_Some (hash_ s !! g) → evictable_ (frame_at s g) = false →
  is_Some (hash_ (step s c).1 !! g).
Proof.
  intros Hg Hflag. destruct c as [f|f b|order|f]; simpl.
  - destruct (RecordAccess_shape s f) as [[_ ->]|[(_ & q & -> & _)|[_ ->]]]; simpl;
      [done|apply lookup_insert_is_Some'; by right..].
  - unfold SetEvictable. destruct (hash_ s !! f); simpl; [|done].
    apply lookup_insert_is_Some'. by right.
  - destruct (Evict_state order s) as [->|[cand ->]]; [done|].
    by apply Remove_keeps_tracked.
  - by apply Remove_keeps_tracked.
Qed.

(** X16. After [SetEvictable(f, false)] on a tracked frame, as long as no
    call [SetEvictable(f, true)] follows, no call of [Evict] returns [f],
    the frame stays tracked with its flag false, and [Remove(f)] throws and
    changes nothing. *)
Theorem SetEvictable_false_protects s f cs :
  is_Some (hash_ s !! f) →
  well_ordered (SetEvictable s f false) cs → CallSetEvictable f true ∉ cs →
  never_evicts f (SetEvictable s f false) cs
  ∧ (∃ fr, hash_ (run (SetEvictable s f false) cs) !! f = Some fr
           ∧ evictable_ fr = false)
  ∧ Remove (run (SetEvictable s f false) cs) f
    = (run (SetEvictable s f false) cs, Throw "remove a non-evivtable frame").
Proof.
  intros Htracked Hwo Hnot.
  assert (evictable_ (frame_at (SetEvictable s f false) f) = false
          ∧ is_Some (hash_ (SetEvictable s f false) !! f)) as [Hflag Hin].
  { rewrite SetEvictable_flag, decide_True by done. split; [done|].
    unfold SetEvictable. destruct Htracked as [fr ->]. simpl.
    by rewrite lookup_insert_eq. }
  split; [by apply never_evicts_flag_false|].
  assert (evictable_ (frame_at (run (SetEvictable s f false) cs) f) = false
          ∧ is_Some (hash_ (run (SetEvictable s f false) cs) !! f)) as [Hend [fr Hfr]].
  { clear Hwo Htracked. revert Hnot Hflag Hin. generalize (SetEvictable s f false).
    induction cs as [|c cs IH]; intros s0 Hnot Hflag Hin; simpl; [done|].
    apply not_elem_of_cons in Hnot as [Hc Hnot].
    apply IH; [done|by apply step_keeps_flag_false|by apply step_keeps_tracked]. }
  unfold frame_at in Hend. rewrite Hfr in Hend. simpl in Hend.
  split; [by exists fr|]. unfold Remove. by rewrite Hfr, Hend.
Qed.

(** X17. When [Remove(f)] returns, [f] is no longer tracked, every other
    frame is as it was, the clock is not advanced and [Size()] has dropped
    by one if [f] was tracked and evictable, by nothing otherwise; a
    following [RecordAccess(f)] starts a new history of one timestamp, not
    evictable. *)
Theorem Remove_forgets_history s f s' :
  Remove s f = (s', Ok ()) →
  hash_ s' !! f = None
  ∧ (∀ g, g ≠ f → hash_ s' !! g = hash_ s !! g)
  ∧ current_timestamp_ s' = current_timestamp_ s
  ∧ Size s' = Size s - Z.of_nat (flag_weight (hash_ s !! f))
  ∧ ((1 ≤ k_ s)%nat → ¬ f > static_cast_int (replacer_size_ s) →
     (RecordAccess s' f).2 = Ok ()
     ∧ hash_ (RecordAccess s' f).1 !! f
       = Some (mkFrame [current_timestamp_ s] false)).
Proof.
  unfold Remove, flag_weight, Size. destruct (hash_ s !! f) as [fr|] eqn:Hf.
  - destruct (evictable_ fr) eqn:He; simpl; [|done]. intros [= <-]. simpl.
    split; [apply lookup_delete_eq|]. split; [intros g Hg; by apply lookup_delete_ne|].
    split; [done|]. split; [lia|]. intros Hk Hle.
    unfold RecordAccess, frame_at. simpl.
    rewrite bool_decide_eq_false_2 by done. rewrite lookup_delete_eq. simpl.
    rewrite bool_decide_eq_false_2 by lia. simpl. by rewrite lookup_insert_eq.
  - intros [= <-]. split; [done|]. split; [done|]. split; [done|]. simpl.
    split; [lia|]. intros Hk Hle.
    unfold RecordAccess, frame_at. rewrite Hf. simpl.
    rewrite bool_decide_eq_false_2 by done.
    rewrite bool_decide_eq_false_2 by lia. simpl. by rewrite lookup_insert_eq.
Qed.

(** X18. Of two calls of [SetEvictable] in a row for one frame only the
    second counts: the state is the one the second call alone gives. *)
Theorem SetEvictable_twice s f b b' :
  SetEvictable (SetEvictable s f b) f b' = SetEvictable s f b'.
Proof.
  unfold SetEvictable. destruct (hash_ s !! f) as [fr|] eqn:Hf; simpl.
  - rewrite lookup_insert_eq. simpl. rewrite insert_insert_eq.
    f_equal. destruct (evictable_ fr), b, b'; simpl; lia.
  - by rewrite Hf.
Qed.

(** ** Instances *)

Lemma three_frames_tracked_ok : tracked_ok three_frames.
Proof.
  apply run_tracked_ok; [lia|].
  repeat constructor; intros f [= <-]; lia.
Qed.

Lemma three_frames_stamps_ok : stamps_ok three_frames.
Proof. apply run_stamps_ok; [simpl; lia|apply new_stamps_ok]. Qed.

Lemma three_frames_count_ok : count_ok three_frames.
Proof. apply run_count_ok, new_count_ok. Qed.

Lemma three_frames_enumerates :
  enumerates (map_to_list (hash_ three_frames)) three_frames.
Proof. unfold enumerates. reflexivity. Qed.

Lemma run_histories_witness :
  (1 ≤ 2)%nat
  ∧ hash_ (run (new 7 2) (replicate 3 (CallRecordAccess 2))) !! 2
    = Some (mkFrame [1; 2] false)
  ∧ 2 ≤ static_cast_int 7
  ∧ StronglySorted Z.lt [1; 2]
  ∧ Forall (λ x, 0 ≤ x
                 < current_timestamp_ (run (new 7 2) (replicate 3 (CallRecordAccess 2))))
      [1; 2].
Proof.
  assert (1 ≤ 2)%nat as Hk by lia.
  assert (hash_ (run (new 7 2) (replicate 3 (CallRecordAccess 2))) !! 2
          = Some (mkFrame [1; 2] false)) as Hf by (vm_compute; reflexivity).
  split; [exact Hk|]. split; [exact Hf|].
  pose proof (run_histories 7 2 _ 2 _ Hk Hf) as (Hid & _ & Hsorted & Hrange & _).
  split; [exact Hid|]. split; [exact Hsorted|exact Hrange].
Defined.

Lemma RecordAccess_window_witness :
  (1 ≤ k_ three_frames)%nat
  ∧ ¬ 2 > static_cast_int (replacer_size_ three_frames)
  ∧ (length (time_ (frame_at three_frames 2)) ≤ k_ three_frames)%nat
  ∧ time_ (frame_at (run three_frames (replicate 3 (CallRecordAccess 2))) 2)
    = drop 2 ([1] ++ seqZ 3 3)
  ∧ Size (run three_frames (replicate 3 (CallRecordAccess 2))) = Size three_frames.
Proof.
  assert (1 ≤ k_ three_frames)%nat as Hk by (vm_compute; lia).
  assert (¬ 2 > static_cast_int (replacer_size_ three_frames)) as Hf
    by (vm_compute; discriminate).
  assert (length (time_ (frame_at three_frames 2)) ≤ k_ three_frames)%nat as Hlen
    by (vm_compute; lia).
  split; [exact Hk|]. split; [exact Hf|]. split; [exact Hlen|].
  destruct (RecordAccess_window three_frames 2 3 Hk Hf Hlen)
    as (Htime & _ & _ & Hsize).
  split; [exact Htime|exact Hsize].
Defined.

Lemma Evict_order_independent_witness :
  tracked_ok three_frames ∧ stamps_apart three_frames
  ∧ enumerates (map_to_list (hash_ three_frames)) three_frames
  ∧ enumerates (reverse (map_to_list (hash_ three_frames))) three_frames
  ∧ Evict (map_to_list (hash_ three_frames)) three_frames
    = Evict (reverse (map_to_list (hash_ three_frames))) three_frames.
Proof.
  assert (stamps_apart three_frames) as Hapart
    by (destruct three_frames_stamps_ok as (_ & _ & H); exact H).
  assert (enumerates (reverse (map_to_list (hash_ three_frames))) three_frames)
    as Hrev by (unfold enumerates; apply reverse_Permutation).
  split; [exact three_frames_tracked_ok|]. split; [exact Hapart|].
  split; [exact three_frames_enumerates|]. split; [exact Hrev|].
  exact (Evict_order_independent _ _ three_frames three_frames_tracked_ok Hapart
           three_frames_enumerates Hrev).
Defined.

Lemma Evict_exactly_when_Size_positive_witness :
  count_ok three_frames ∧ tracked_ok three_frames
  ∧ enumerates (map_to_list (hash_ three_frames)) three_frames
  ∧ ∃ v, (Evict (map_to_list (hash_ three_frames)) three_frames).2 = Ok (Some v).
Proof.
  split; [exact three_frames_count_ok|]. split; [exact three_frames_tracked_ok|].
  split; [exact three_frames_enumerates|].
  destruct (Evict_exactly_when_Size_positive _ three_frames three_frames_count_ok
              three_frames_tracked_ok three_frames_enumerates) as (_ & Hpos & _).
  apply Hpos. vm_compute. reflexivity.
Defined.

Lemma CallEvict_inj order1 order2 :
  CallEvict order1 = CallEvict order2 → order1 = order2.
Proof. by intros [= ->]. Qed.

Lemma well_ordered_Evict_now s cs :
  well_ordered (Evict (map_to_list (hash_ s)) s).1 cs →
  well_ordered s (CallEvict (map_to_list (hash_ s)) :: cs).
Proof.
  intros Hcs. split; [|exact Hcs].
  intros order Hc. apply CallEvict_inj in Hc. rewrite <- Hc.
  unfold enumerates. reflexivity.
Qed.

Lemma SetEvictable_false_protects_witness :
  is_Some (hash_ three_frames !! 1)
  ∧ well_ordered (SetEvictable three_frames 1 false)
      [CallEvict (map_to_list (hash_ (SetEvictable three_frames 1 false)));
       CallRecordAccess 1]
  ∧ never_evicts 1 (SetEvictable three_frames 1 false)
      [CallEvict (map_to_list (hash_ (SetEvictable three_frames 1 false)));
       CallRecordAccess 1].
Proof.
  assert (is_Some (hash_ three_frames !! 1)) as Hf
    by (exists (mkFrame [0] true); vm_compute; reflexivity).
  assert (well_ordered (SetEvictable three_frames 1 false)
            [CallEvict (map_to_list (hash_ (SetEvictable three_frames 1 false)));
             CallRecordAccess 1]) as Hwo.
  { apply well_ordered_Evict_now.
    split; [intros order Hc; discriminate Hc|exact I]. }
  split; [exact Hf|]. split; [exact Hwo|].
  apply (SetEvictable_false_protects three_frames 1 _ Hf Hwo).
  intros Hin. apply elem_of_cons in Hin as [Hc|Hin]; [discriminate Hc|].
  apply elem_of_cons in Hin as [Hc|Hin]; [discriminate Hc|].
  by apply elem_of_nil in Hin.
Defined.

Lemma Remove_forgets_history_witness :
  Remove three_frames 1 = ((Remove three_frames 1).1, Ok ())
  ∧ hash_ (Remove three_frames 1).1 !! 1 = None
  ∧ Size (Remove three_frames 1).1
    = Size three_frames - Z.of_nat (flag_weight (hash_ three_frames !! 1)).
Proof.
  assert (Remove three_frames 1 = ((Remove three_frames 1).1, Ok ())) as Hrm
    by (vm_compute; reflexivity).
  split; [exact Hrm|].
  destruct (Remove_forgets_history three_frames 1 _ Hrm) as (Hgone & _ & _ & Hsize & _).
  split; [exact Hgone|exact Hsize].
Defined.

End ReplacerMore.
